(** * Plugin loading in lib/plugin.js

    A shallow embedding of the two [PluginLoader] implementations found in
    [lib/plugin.js] (the registry-based one, driven by [MochaPlugins], and the
    pluginMap-based one, driven by [PLUGIN_NAMES] and [PluginValidators]),
    of the built-in validators and of the root-hook aggregation, followed by
    the properties stated about them.

    Conventions of the embedding.
    - JavaScript values are the inductive type [value]; a plain object is a
      finite map from property names to values, an array is a list of its
      elements: arrays are dense and carry no named properties.  Only own
      data properties are modelled: names inherited from [Object.prototype]
      or [Array.prototype] are not plugin export names.
    - A JavaScript [Map] is an association list in insertion order
      ([Map_get], [Map_set], [Map_has]); iteration order matters to [load]
      and [finalize].
    - Code that reads or writes [this] is written in the state monad [M],
      whose results are [outcome]s: a value, a thrown error (a rejected
      promise for [async] code), or a promise that never settles.
    - User-supplied callbacks, validators and finalizers are functions of
      their argument: they keep no state between calls and do not modify
      what they are given.  The module [Stateful] lifts this for [finalize],
      to compare one call with the next: there user code may behave
      differently at each invocation and may modify the bucket it is
      handed. *)

From stdpp Require Import base strings gmap list sorting.

Set Warnings "-register-all".

(** ** JavaScript values *)

Inductive value :=
| VUndefined
| VNull
| VBool (b : bool)
| VNum (n : Z)
| VStr (s : string)
| VFun (f : nat)                      (* a callable; [f] names the closure *)
| VArr (items : list value)
| VObj (props : gmap string value).

(** [typeof v] *)
Definition typeof (v : value) : string :=
  match v with
  | VUndefined => "undefined"
  | VNull => "object"
  | VBool _ => "boolean"
  | VNum _ => "number"
  | VStr _ => "string"
  | VFun _ => "function"
  | VArr _ => "object"
  | VObj _ => "object"
  end.

(** [Array.isArray(v)] *)
Definition isArray (v : value) : bool :=
  match v with VArr _ => true | _ => false end.

(** The truthiness of [v], as tested by [if (v)] and [v && ...]. *)
Definition truthy (v : value) : bool :=
  match v with
  | VUndefined | VNull => false
  | VBool b => b
  | VNum n => negb (n =? 0)%Z
  | VStr s => negb (String.eqb s "")
  | VFun _ | VArr _ | VObj _ => true
  end.

(** [v[k]] for a property name [k]. *)
Definition get (v : value) (k : string) : value :=
  match v with
  | VObj props => default VUndefined (props !! k)
  | _ => VUndefined
  end.

(** The own enumerable named properties copied by an object spread
    [{...v}]; arrays and strings only spread index-named properties, which
    nothing here reads. *)
Definition ownProps (v : value) : gmap string value :=
  match v with VObj props => props | _ => ∅ end.

(** ** Errors and outcomes *)

Inductive error :=
| UnsupportedError (message : string)  (* createUnsupportedError(message) *)
| PlainError (message : string)        (* new Error(message) *)
| TypeError (message : string)         (* raised by the runtime *)
| UserError (reason : string).         (* thrown or rejected by user code *)

(** Modelled from the spec: [createUnsupportedError] of [lib/errors.js] is
    not part of the sources at hand; the spec calls its result a descriptive
    "unsupported" error carrying the message it is given. *)
Definition createUnsupportedError (message : string) : error :=
  UnsupportedError message.

Inductive outcome (A : Type) :=
| Returns (a : A)      (* normal completion; fulfilled promise *)
| Throws (e : error)   (* exception; rejected promise *)
| Pending.             (* a promise that never settles *)
Arguments Returns {A} a.
Arguments Throws {A} e.
Arguments Pending {A}.

(** ** The state monad of methods *)

Definition M (S A : Type) : Type := S → outcome A * S.

#[global] Instance M_ret {S} : MRet (M S) := λ A a s, (Returns a, s).

#[global] Instance M_bind {S} : MBind (M S) := λ A B k m s,
  match m s with
  | (Returns a, s') => k a s'
  | (Throws e, s') => (Throws e, s')
  | (Pending, s') => (Pending, s')
  end.

Definition throw {S A} (e : error) : M S A := λ s, (Throws e, s).
Definition getState {S} : M S S := λ s, (Returns s, s).
Definition putState {S} (s : S) : M S () := λ _, (Returns (), s).
(** [await p] for a promise [p] whose outcome is known. *)
Definition await {S A} (p : outcome A) : M S A := λ s, (p, s).

(** [finalize] runs on the loader paired with the names of the aggregators
    invoked so far, in invocation order; [invoke name] records one more. *)
Definition invoke {S} (name : string) : M (S * list string) () :=
  λ '(this, calls), (Returns (), (this, calls ++ [name])).

(** [names.reduce(f, init)] for a callback [f] that runs in [M]. *)
Fixpoint reduceM {S A B} (f : B → A → M S B) (l : list A) (acc : B) : M S B :=
  match l with
  | [] => mret acc
  | x :: l' => acc' ← f acc x; reduceM f l' acc'
  end.

(** ** JavaScript [Map], in insertion order *)

Section JSMap.
Context {V : Type}.

Fixpoint Map_get (k : string) (m : list (string * V)) : option V :=
  match m with
  | [] => None
  | (k', v) :: m' => if decide (k' = k) then Some v else Map_get k m'
  end.

Definition Map_has (k : string) (m : list (string * V)) : bool :=
  bool_decide (is_Some (Map_get k m)).

(** [m.set(k, v)]: an existing key keeps its position. *)
Fixpoint Map_set (k : string) (v : V) (m : list (string * V)) : list (string * V) :=
  match m with
  | [] => [(k, v)]
  | (k', v') :: m' =>
      if decide (k' = k) then (k, v) :: m' else (k', v') :: Map_set k v m'
  end.

(** [new Map(entries)] *)
Definition Map_new (entries : list (string * V)) : list (string * V) :=
  fold_left (λ m kv, Map_set kv.1 kv.2 m) entries [].

Definition Map_keys (m : list (string * V)) : list string := m.*1.
End JSMap.

(** ** [castArray] *)

(** Modelled from the spec: [castArray] of [lib/utils.js] is not part of the
    sources at hand.  The spec describes it as the single "coerce to ordered
    sequence" utility: "a bare function or single object becomes a
    one-element sequence; an already-array-like value is used as-is".  The
    spec is silent on [undefined], taken here to the empty sequence; no
    statement below rests on that choice. *)
Definition castArray (v : value) : list value :=
  match v with
  | VArr items => items
  | VUndefined => []
  | _ => [v]
  end.

(** ** Promises and [Promise.all] *)

(** A promise is described by how and when it settles; times are abstract
    ticks of the event loop.  A function that returns or throws
    synchronously settles at time 0. *)
Inductive settlement :=
| Fulfil (v : value)
| Reject (e : error).

Inductive promise :=
| SettlesAt (time : nat) (s : settlement)
| NeverSettles.

(** The settlement of the promise at position [ev_index] of the array given
    to [Promise.all]. *)
Record event := Event {
  ev_time : nat;
  ev_index : nat;
  ev_settlement : settlement
}.

Fixpoint eventsFrom (i : nat) (promises : list promise) : list event :=
  match promises with
  | [] => []
  | SettlesAt t s :: rest => Event t i s :: eventsFrom (S i) rest
  | NeverSettles :: rest => eventsFrom (S i) rest
  end.

(** Reactions run in order of settlement time; promises settling at the same
    tick react in array order. *)
Definition before (e1 e2 : event) : Prop :=
  ev_time e1 < ev_time e2
  ∨ (ev_time e1 = ev_time e2 ∧ ev_index e1 ≤ ev_index e2).

#[global] Instance before_dec e1 e2 : Decision (before e1 e2).
Proof. unfold before. apply _. Defined.

(** The record kept by [Promise.all]: the [values] array with one slot per
    input promise and the count of promises still awaited, until the
    combined promise is settled. *)
Inductive allState :=
| Waiting (values : list (option value)) (remaining : nat)
| Settled (result : outcome (list value)).

(** The reaction of [Promise.all] to one input promise settling: a
    fulfilment stores the value in the slot of that promise and resolves the
    combined promise once nothing remains; a rejection rejects it at once;
    a settled combined promise ignores everything. *)
Definition onSettle (st : allState) (ev : event) : allState :=
  match st with
  | Settled r => Settled r
  | Waiting values remaining =>
      match ev_settlement ev with
      | Reject e => Settled (Throws e)
      | Fulfil v =>
          let values' := <[ev_index ev := Some v]> values in
          if decide (remaining - 1 = 0)
          then Settled (Returns (default VUndefined <$> values'))
          else Waiting values' (remaining - 1)
      end
  end.

Definition Promise_all (promises : list promise) : outcome (list value) :=
  let n := length promises in
  if decide (n = 0) then Returns []
  else
    match fold_left onSettle (merge_sort before (eventsFrom 0 promises))
                    (Waiting (replicate n None) n) with
    | Settled r => r
    | Waiting _ _ => Pending
    end.

(** ** Calls into user code *)

(** The aggregation of root hooks runs user code in two ways.  It invokes a
    callback [VFun f] without arguments; and, when the promise of an [async]
    function is resolved with an object that has a callable [then], that
    [then] is called on the object, which decides how the promise settles
    (the object is adopted). *)
Inductive userCall :=
| CallHook (f : nat)                      (* hook() *)
| CallThen (f : nat) (thenable : value).  (* thenable.then(resolve, reject) *)

(** ** The canonical root-hook set *)

Record RootHookSet := {
  beforeAll : list value;
  beforeEach : list value;
  afterAll : list value;
  afterEach : list value
}.

(** The object [{beforeAll: [...], beforeEach: [...], afterAll: [...],
    afterEach: [...]}] built by the reducers below. *)
Definition RootHookSet_object (r : RootHookSet) : value :=
  VObj {[ "beforeAll" := VArr (beforeAll r);
          "beforeEach" := VArr (beforeEach r);
          "afterAll" := VArr (afterAll r);
          "afterEach" := VArr (afterEach r) ]}.

(** The four empty defaults [{beforeAll: [], beforeEach: [], afterAll: [],
    afterEach: []}] that both reducers spread each hook object over. *)
Definition emptyHooks : gmap string value :=
  {[ "beforeAll" := VArr []; "beforeEach" := VArr [];
     "afterAll" := VArr []; "afterEach" := VArr [] ]}.

(** [m.k] on a property map. *)
Definition prop (m : gmap string value) (k : string) : value :=
  default VUndefined (m !! k).

(** ** The registry-based implementation *)

Module Registry.

(** A [PluginDefinition]; [optionName], [validate] and [finalize] are
    optional. *)
Module PluginDefinition.
Record t := {
  exportName : string;
  optionName : option string;
  validate : option (value → outcome ());
  finalize : option (list value → outcome value)
}.
End PluginDefinition.

(** The fields [registered] and [loaded] of a [PluginLoader]. *)
Record PluginLoader := {
  registered : list (string * PluginDefinition.t);
  loaded : list (string * list value)
}.

Section Plugins.
(** What a call into user code leads to: how the promise of the [async]
    wrapper that makes the call settles. *)
Variable callHook : userCall → promise.

Definition createFunctionArrayValidator (pluginType : string) (value : value)
  : outcome () :=
  let isValid :=
    match value with
    | VArr items =>
        if existsb (λ item, bool_decide (typeof item ≠ "function")) items
        then false else true
    | _ => if bool_decide (typeof value ≠ "function") then false else true
    end in
  if negb isValid then
    Throws (createUnsupportedError
              (pluginType ++ " must be a function or an array of functions"))
  else Returns ().

(** [validate] of the [mochaHooks] definition *)
Definition mochaHooks_validate (value : value) : outcome () :=
  if isArray value
     || (bool_decide (typeof value ≠ "function")
         && bool_decide (typeof value ≠ "object"))
  then Throws (createUnsupportedError
    "mochaHooks must be an object or a function returning (or fulfilling with) an object")
  else Returns ().

(** [async hook => typeof hook === 'function' ? hook() : hook]: the promise
    of the wrapper.  A callback is invoked.  Any other hook is returned as it
    is, and the promise is resolved with it: an object with a callable
    [then] is adopted, anything else fulfils the promise. *)
Definition resolveHook (hook : value) : promise :=
  match hook with
  | VFun f => callHook (CallHook f)
  | _ =>
      match get hook "then" with
      | VFun f => callHook (CallThen f hook)
      | _ => SettlesAt 0 (Fulfil hook)
      end
  end.

(** The callback of [rootHookObjects.reduce]. *)
Definition mergeHook (acc : RootHookSet) (hook : value) : RootHookSet :=
  let hook := ownProps hook ∪ emptyHooks in
  {| beforeAll := beforeAll acc ++ castArray (prop hook "beforeAll");
     beforeEach := beforeEach acc ++ castArray (prop hook "beforeEach");
     afterAll := afterAll acc ++ castArray (prop hook "afterAll");
     afterEach := afterEach acc ++ castArray (prop hook "afterEach") |}.

(** [finalize] of the [mochaHooks] definition *)
Definition mochaHooks_finalize (rootHooks : list value) : outcome value :=
  if decide (length rootHooks ≠ 0) then
    match Promise_all (resolveHook <$> rootHooks) with
    | Returns rootHookObjects =>
        Returns (RootHookSet_object
                   (fold_left mergeHook rootHookObjects
                      {| beforeAll := []; beforeEach := [];
                         afterAll := []; afterEach := [] |}))
    | Throws e => Throws e
    | Pending => Pending
    end
  else Returns VUndefined.

Definition MochaPlugins : list PluginDefinition.t :=
  [ {| PluginDefinition.exportName := "mochaHooks";
       PluginDefinition.optionName := Some "rootHooks";
       PluginDefinition.validate := Some mochaHooks_validate;
       PluginDefinition.finalize := Some mochaHooks_finalize |};
    {| PluginDefinition.exportName := "mochaGlobalSetup";
       PluginDefinition.optionName := Some "globalSetup";
       PluginDefinition.validate := Some (createFunctionArrayValidator "mochaGlobalSetup");
       PluginDefinition.finalize := None |};
    {| PluginDefinition.exportName := "mochaGlobalTeardown";
       PluginDefinition.optionName := Some "globalTeardown";
       PluginDefinition.validate := Some (createFunctionArrayValidator "mochaGlobalTeardown");
       PluginDefinition.finalize := None |} ].

(** [register(plugin)] *)
Definition register (plugin : PluginDefinition.t) : M PluginLoader () :=
  this ← getState;
  if Map_has (PluginDefinition.exportName plugin) (registered this) then
    throw (PlainError ("plugin name conflict: " ++ PluginDefinition.exportName plugin))
  else
    putState {| registered := Map_set (PluginDefinition.exportName plugin) plugin (registered this);
                loaded := loaded this |}.

(** [get exportNames()] *)
Definition exportNames (this : PluginLoader) : list string :=
  Map_keys (registered this).

(** The body of the constructor, run on a fresh object. *)
Definition constructor (pluginDefinitions : list PluginDefinition.t)
  : M PluginLoader () :=
  this ← getState;
  putState {| registered := []; loaded := loaded this |};;
  reduceM (λ _ pluginDef, register pluginDef) pluginDefinitions ();;
  this ← getState;
  putState {| registered := registered this;
              loaded := Map_new ((λ name, (name, [])) <$> exportNames this) |}.

(** [new PluginLoader(pluginDefinitions)]: the constructed loader, or the
    error thrown by the constructor. *)
Definition new (pluginDefinitions : list PluginDefinition.t) : outcome PluginLoader :=
  match constructor pluginDefinitions {| registered := []; loaded := [] |} with
  | (Returns _, this) => Returns this
  | (Throws e, _) => Throws e
  | (Pending, _) => Pending
  end.

(** [PluginLoader.create(pluginDefs = MochaPlugins)] *)
Definition create (pluginDefs : option (list PluginDefinition.t))
  : outcome PluginLoader :=
  new (default MochaPlugins pluginDefs).

(** The callback of [this.exportNames.reduce] in [load]. *)
Definition load_step (requiredModule : value) (isFound : bool)
    (pluginName : string) : M PluginLoader bool :=
  let impl := get requiredModule pluginName in
  if truthy impl then
    this ← getState;
    match Map_get pluginName (registered this) with
    | None => throw (TypeError "Cannot read properties of undefined (reading 'validate')")
    | Some plugin =>
        match PluginDefinition.validate plugin with
        | Some validate => await (validate impl)
        | None => mret ()
        end;;
        this ← getState;
        match Map_get pluginName (loaded this) with
        | None => throw (TypeError "this.loaded.get(...) is not iterable")
        | Some impls =>
            putState {| registered := registered this;
                        loaded := Map_set pluginName (impls ++ castArray impl)
                                    (loaded this) |};;
            mret true
        end
    end
  else mret isFound.

(** [load(requiredModule)] *)
Definition load (requiredModule : value) : M PluginLoader bool :=
  if truthy requiredModule && bool_decide (typeof requiredModule = "object") then
    this ← getState;
    reduceM (load_step requiredModule) (exportNames this) false
  else mret false.

(** [plugin.optionName || exportName] *)
Definition outputKey (plugin : PluginDefinition.t) (exportName : string) : string :=
  match PluginDefinition.optionName plugin with
  | Some name => if String.eqb name "" then exportName else name
  | None => exportName
  end.

(** The body of the [for await] loop of [finalize]. *)
Definition finalize_step (finalizedPlugins : gmap string value)
    (entry : string * list value)
  : M (PluginLoader * list string) (gmap string value) :=
  let '(exportName, impls) := entry in
  if decide (length impls ≠ 0) then
    '(this, _) ← getState;
    match Map_get exportName (registered this) with
    | None => throw (TypeError "Cannot read properties of undefined (reading 'finalize')")
    | Some plugin =>
        match PluginDefinition.finalize plugin with
        | Some finalize =>
            invoke exportName;;
            result ← await (finalize impls);
            mret (<[outputKey plugin exportName := result]> finalizedPlugins)
        | None => mret finalizedPlugins
        end
    end
  else mret finalizedPlugins.

(** [finalize()] of the loader *)
Definition finalize : M (PluginLoader * list string) (gmap string value) :=
  '(this, _) ← getState;
  reduceM finalize_step (loaded this) ∅.
End Plugins.

End Registry.

(** ** The pluginMap-based implementation *)

Module PluginMap.

Definition PLUGIN_ROOT_HOOKS : string := "mochaHooks".
Definition PLUGIN_GLOBAL_SETUP : string := "mochaGlobalSetup".
Definition PLUGIN_GLOBAL_TEARDOWN : string := "mochaGlobalTeardown".

(** [new Set(Object.values(constants))], in the order of the literal given
    to [defineConstants]. *)
Definition PLUGIN_NAMES : list string :=
  [PLUGIN_ROOT_HOOKS; PLUGIN_GLOBAL_SETUP; PLUGIN_GLOBAL_TEARDOWN].

(** The fields [pluginNames], [pluginMap] and [pluginValidators] of a
    [PluginLoader]. *)
Record PluginLoader := {
  pluginNames : list string;
  pluginMap : list (string * list value);
  pluginValidators : gmap string (value → outcome ())
}.

Section Plugins.
(** What a call into user code leads to: how the promise of the [async]
    wrapper that makes the call settles. *)
Variable callHook : userCall → promise.

Definition createFunctionArrayValidator (pluginType : string) (value : value)
  : outcome () :=
  let isValid :=
    match value with
    | VArr items =>
        if existsb (λ item, bool_decide (typeof item ≠ "function")) items
        then false else true
    | _ => if bool_decide (typeof value ≠ "function") then false else true
    end in
  if negb isValid then
    Throws (createUnsupportedError
              (pluginType ++ " must be a function or an array of functions"))
  else Returns ().

Definition PluginValidators : gmap string (value → outcome ()) :=
  {[ PLUGIN_ROOT_HOOKS := λ value,
       if isArray value
          || (bool_decide (typeof value ≠ "function")
              && bool_decide (typeof value ≠ "object"))
       then Throws (createUnsupportedError
         (PLUGIN_ROOT_HOOKS ++ " must be an object or a function returning (or fulfilling with) an object"))
       else Returns ();
     PLUGIN_GLOBAL_SETUP := createFunctionArrayValidator PLUGIN_GLOBAL_SETUP;
     PLUGIN_GLOBAL_TEARDOWN := createFunctionArrayValidator PLUGIN_GLOBAL_TEARDOWN ]}.

(** [new PluginLoader({pluginNames = PLUGIN_NAMES, pluginValidators =
    PluginValidators} = {})] *)
Definition new (pluginNames : option (list string))
    (pluginValidators : option (gmap string (value → outcome ())))
  : PluginLoader :=
  let names := default PLUGIN_NAMES pluginNames in
  {| pluginNames := names;
     pluginMap := Map_new ((λ pluginName, (pluginName, [])) <$> names);
     pluginValidators := default PluginValidators pluginValidators |}.

(** [PluginLoader.create(...args)] *)
Definition create (pluginNames : option (list string))
    (pluginValidators : option (gmap string (value → outcome ())))
  : PluginLoader :=
  new pluginNames pluginValidators.

(** The callback of [this.pluginNames.reduce] in [load]. *)
Definition load_step (requiredModule : value) (isFound : bool)
    (pluginName : string) : M PluginLoader bool :=
  let plugin := get requiredModule pluginName in
  if truthy plugin then
    this ← getState;
    match pluginValidators this !! pluginName with
    | Some validate => await (validate plugin)
    | None => mret ()
    end;;
    this ← getState;
    match Map_get pluginName (pluginMap this) with
    | None => throw (TypeError "this.pluginMap.get(...) is not iterable")
    | Some plugins =>
        putState {| pluginNames := pluginNames this;
                    pluginMap := Map_set pluginName (plugins ++ castArray plugin)
                                   (pluginMap this);
                    pluginValidators := pluginValidators this |};;
        mret true
    end
  else mret isFound.

(** [load(requiredModule)] *)
Definition load (requiredModule : value) : M PluginLoader bool :=
  if truthy requiredModule && bool_decide (typeof requiredModule = "object") then
    this ← getState;
    reduceM (load_step requiredModule) (pluginNames this) false
  else mret false.

(** [async hook => (typeof hook === 'function' ? hook() : hook)]: the
    promise of the wrapper.  A callback is invoked.  Any other hook is
    returned as it is, and the promise is resolved with it: an object with a
    callable [then] is adopted, anything else fulfils the promise. *)
Definition resolveHook (hook : value) : promise :=
  match hook with
  | VFun f => callHook (CallHook f)
  | _ =>
      match get hook "then" with
      | VFun f => callHook (CallThen f hook)
      | _ => SettlesAt 0 (Fulfil hook)
      end
  end.

(** The callback of [rootHookObjects.reduce]. *)
Definition mergeHook (acc : RootHookSet) (hook : value) : RootHookSet :=
  let hook := ownProps hook ∪ emptyHooks in
  {| beforeAll := beforeAll acc ++ castArray (prop hook "beforeAll");
     beforeEach := beforeEach acc ++ castArray (prop hook "beforeEach");
     afterAll := afterAll acc ++ castArray (prop hook "afterAll");
     afterEach := afterEach acc ++ castArray (prop hook "afterEach") |}.

(** [aggregateRootHooks(rootHooks = [])]; the [console.dir] of the
    resolved objects writes to the console and has no part in the
    result. *)
Definition aggregateRootHooks (rootHooks : option (list value)) : outcome value :=
  let rootHooks := default [] rootHooks in
  match Promise_all (resolveHook <$> rootHooks) with
  | Returns rootHookObjects =>
      Returns (RootHookSet_object
                 (fold_left mergeHook rootHookObjects
                    {| beforeAll := []; beforeEach := [];
                       afterAll := []; afterEach := [] |}))
  | Throws e => Throws e
  | Pending => Pending
  end.

(** [bucket.length] for the result of [this.pluginMap.get(name)], which
    is [undefined] for a name that has no bucket. *)
Definition lengthOf {S} (bucket : option (list value)) : M S nat :=
  match bucket with
  | Some impls => mret (length impls)
  | None => throw (TypeError "Cannot read properties of undefined (reading 'length')")
  end.

(** [finalize()] of the loader *)
Definition finalize : M (PluginLoader * list string) (gmap string value) :=
  '(this, _) ← getState;
  let mochaHooks := Map_get PLUGIN_ROOT_HOOKS (pluginMap this) in
  let finalizedPlugins : gmap string value := ∅ in
  n ← lengthOf mochaHooks;
  finalizedPlugins ←
    (if decide (n ≠ 0) then
       invoke "aggregateRootHooks";;
       rootHooks ← await (aggregateRootHooks mochaHooks);
       mret (<["rootHooks" := rootHooks]> finalizedPlugins)
     else mret finalizedPlugins);
  let mochaGlobalSetup := Map_get PLUGIN_GLOBAL_SETUP (pluginMap this) in
  n ← lengthOf mochaGlobalSetup;
  let finalizedPlugins :=
    if decide (n ≠ 0)
    then <["globalSetup" := VArr (default [] mochaGlobalSetup)]> finalizedPlugins
    else finalizedPlugins in
  let mochaGlobalTeardown := Map_get PLUGIN_GLOBAL_TEARDOWN (pluginMap this) in
  n ← lengthOf mochaGlobalTeardown;
  let finalizedPlugins :=
    if decide (n ≠ 0)
    then <["globalTeardown" := VArr (default [] mochaGlobalTeardown)]> finalizedPlugins
    else finalizedPlugins in
  mret finalizedPlugins.
End Plugins.

End PluginMap.

(** ** [finalize] of the registry-based loader, with user code that has effects *)

(** Above, aggregators and callbacks are functions of their argument, which
    is all that a statement about one call of [finalize] needs.  Two calls
    in a row are another matter: the second call invokes every aggregator
    again, the built-in aggregator invokes every callback again, and an
    aggregator is handed the bucket itself, the array held by
    [this.loaded], not a copy.  In this section user code may behave
    differently at each invocation and may modify the array it is handed. *)
Module Stateful.

(** What one invocation of an aggregator leads to: how the promise it
    returns settles, and the contents it leaves in the array it was
    handed. *)
Record aggregation := {
  result : outcome value;
  bucket : list value
}.

(** A [PluginDefinition].  [finalize n impls] is the invocation of the
    aggregator on an array holding [impls] when [n] aggregators have been
    invoked on the loader before. *)
Module PluginDefinition.
Record t := {
  exportName : string;
  optionName : option string;
  validate : option (value → outcome ());
  finalize : option (nat → list value → aggregation)
}.
End PluginDefinition.

(** The fields [registered] and [loaded] of a [PluginLoader]. *)
Record PluginLoader := {
  registered : list (string * PluginDefinition.t);
  loaded : list (string * list value)
}.

Section Plugins.
(** What a call into user code leads to when it is made by the aggregator
    invocation numbered [n]. *)
Variable callHook : nat → userCall → promise.

(** [finalize] of the [mochaHooks] definition: it reads [rootHooks.length]
    and maps over the array, which it leaves as it is. *)
Definition mochaHooks_finalize (n : nat) (rootHooks : list value) : aggregation :=
  {| result := Registry.mochaHooks_finalize (callHook n) rootHooks;
     bucket := rootHooks |}.

Definition MochaPlugins : list PluginDefinition.t :=
  [ {| PluginDefinition.exportName := "mochaHooks";
       PluginDefinition.optionName := Some "rootHooks";
       PluginDefinition.validate := Some Registry.mochaHooks_validate;
       PluginDefinition.finalize := Some mochaHooks_finalize |};
    {| PluginDefinition.exportName := "mochaGlobalSetup";
       PluginDefinition.optionName := Some "globalSetup";
       PluginDefinition.validate :=
         Some (Registry.createFunctionArrayValidator "mochaGlobalSetup");
       PluginDefinition.finalize := None |};
    {| PluginDefinition.exportName := "mochaGlobalTeardown";
       PluginDefinition.optionName := Some "globalTeardown";
       PluginDefinition.validate :=
         Some (Registry.createFunctionArrayValidator "mochaGlobalTeardown");
       PluginDefinition.finalize := None |} ].
End Plugins.

(** [plugin.optionName || exportName] *)
Definition outputKey (plugin : PluginDefinition.t) (exportName : string) : string :=
  match PluginDefinition.optionName plugin with
  | Some name => if String.eqb name "" then exportName else name
  | None => exportName
  end.

(** The [for await] loop of [finalize] over the entries of [this.loaded]
    from [entries] on: the outcome, the entries as the loop leaves them and
    the names of the aggregators invoked so far. *)
Fixpoint finalize_loop (registered : list (string * PluginDefinition.t))
    (entries : list (string * list value))
    (finalizedPlugins : gmap string value) (calls : list string)
  : outcome (gmap string value) * (list (string * list value) * list string) :=
  match entries with
  | [] => (Returns finalizedPlugins, ([], calls))
  | (exportName, impls) :: rest =>
      if decide (length impls ≠ 0) then
        match Map_get exportName registered with
        | None =>
            (Throws (TypeError "Cannot read properties of undefined (reading 'finalize')"),
             (entries, calls))
        | Some plugin =>
            match PluginDefinition.finalize plugin with
            | Some finalize =>
                let run := finalize (length calls) impls in
                let calls := calls ++ [exportName] in
                match result run with
                | Returns v =>
                    let r := finalize_loop registered rest
                               (<[outputKey plugin exportName := v]> finalizedPlugins)
                               calls in
                    (r.1, ((exportName, bucket run) :: r.2.1, r.2.2))
                | Throws e => (Throws e, ((exportName, bucket run) :: rest, calls))
                | Pending => (Pending, ((exportName, bucket run) :: rest, calls))
                end
            | None =>
                let r := finalize_loop registered rest finalizedPlugins calls in
                (r.1, ((exportName, impls) :: r.2.1, r.2.2))
            end
        end
      else
        let r := finalize_loop registered rest finalizedPlugins calls in
        (r.1, ((exportName, impls) :: r.2.1, r.2.2))
  end.

(** [finalize()] of the loader *)
Definition finalize : M (PluginLoader * list string) (gmap string value) :=
  λ '(this, calls),
    let r := finalize_loop (registered this) (loaded this) ∅ calls in
    (r.1, ({| registered := registered this; loaded := r.2.1 |}, r.2.2)).

End Stateful.

(** * Notions used in the statements *)

(** [p] is fulfilled with [v], at whatever time. *)
Definition fulfilsWith (p : promise) (v : value) : Prop :=
  ∃ t, p = SettlesAt t (Fulfil v).

(** What a settlement does to the [values] array of [Promise.all]. *)
Definition store (values : list (option value)) (ev : event)
  : list (option value) :=
  match ev_settlement ev with
  | Fulfil v => <[ev_index ev := Some v]> values
  | Reject _ => values
  end.

Definition isFulfil (ev : event) : Prop := ∃ v, ev_settlement ev = Fulfil v.

(** The sequence a resolved hook object contributes under a lifecycle key:
    nothing when the key is missing, otherwise its value coerced to a
    sequence. *)
Definition contributed (key : string) (obj : value) : list value :=
  match ownProps obj !! key with
  | None => []
  | Some v => castArray v
  end.

(** The concatenation, in the order of [objs], of what each object
    contributes under each of the four keys. *)
Definition mergedHooks (objs : list value) : RootHookSet :=
  {| beforeAll := objs ≫= contributed "beforeAll";
     beforeEach := objs ≫= contributed "beforeEach";
     afterAll := objs ≫= contributed "afterAll";
     afterEach := objs ≫= contributed "afterEach" |}.

(** The object form of a contribution: what the invocation of a callback
    is fulfilled with, what the adoption of an object with a callable [then]
    is fulfilled with, or else the contribution itself. *)
Definition resolvesTo (callHook : userCall → promise) (hook obj : value) : Prop :=
  match hook with
  | VFun f => fulfilsWith (callHook (CallHook f)) obj
  | _ =>
      match get hook "then" with
      | VFun f => fulfilsWith (callHook (CallThen f hook)) obj
      | _ => obj = hook
      end
  end.

(** [if (validate) validate(impl)] *)
Definition runValidate (validate : option (value → outcome ())) (impl : value)
  : outcome () :=
  match validate with
  | Some validate => validate impl
  | None => Returns ()
  end.

(** The outcome of validating [impl] as the kind registered under [name]. *)
Definition Registry_validation (this : Registry.PluginLoader) (name : string)
    (impl : value) : outcome () :=
  match Map_get name (Registry.registered this) with
  | Some plugin => runValidate (Registry.PluginDefinition.validate plugin) impl
  | None => Returns ()
  end.

(** A loader as the constructor leaves it and [load] keeps it: the
    registered names are distinct and each has its bucket, in registration
    order. *)
Definition Registry_wf (this : Registry.PluginLoader) : Prop :=
  NoDup (Registry.exportNames this)
  ∧ Map_keys (Registry.loaded this) = Registry.exportNames this.

(** [m] is something [load] looks into. *)
Definition isObject (m : value) : bool :=
  truthy m && bool_decide (typeof m = "object").

(** The export of [m] under [name] is found by [load]. *)
Definition exports (m : value) (name : string) : Prop :=
  truthy (get m name) = true.

#[global] Instance exports_dec m name : Decision (exports m name).
Proof. unfold exports. apply _. Defined.

(** The bucket of [name] once the exports of [m] under [names] have been
    appended to [loaded]. *)
Definition appended (m : value) (names : list string)
    (loaded : list (string * list value)) (name : string)
  : option (list value) :=
  if decide (name ∈ names ∧ exports m name)
  then (λ impls, impls ++ castArray (get m name)) <$> Map_get name loaded
  else Map_get name loaded.

#[global] Instance error_eq_dec : EqDecision error.
Proof. solve_decision. Defined.

#[global] Instance outcome_eq_dec `{EqDecision A} : EqDecision (outcome A).
Proof. solve_decision. Defined.

(** The outcome [o] of a validator, as the outcome of the [load] it aborts. *)
Definition aborts {A} (o : outcome ()) : outcome A :=
  match o with
  | Returns _ => Pending
  | Throws e => Throws e
  | Pending => Pending
  end.

(** The export of [m] under [name], if found, passes validation. *)
Definition accepted (this : Registry.PluginLoader) (m : value) (name : string)
  : Prop :=
  exports m name → Registry_validation this name (get m name) = Returns ().

#[global] Instance accepted_dec this m name : Decision (accepted this m name).
Proof. unfold accepted. apply _. Defined.

(** [this'] has the registry of [this] and the buckets of [this], each
    possibly with more at its end. *)
Definition grows (this this' : Registry.PluginLoader) : Prop :=
  Registry.registered this' = Registry.registered this
  ∧ Map_keys (Registry.loaded this') = Map_keys (Registry.loaded this)
  ∧ ∀ name impls, Map_get name (Registry.loaded this) = Some impls →
      ∃ extra, Map_get name (Registry.loaded this') = Some (impls ++ extra).

(** The entry [register] stores for a definition. *)
Definition entry (plugin : Registry.PluginDefinition.t)
  : string * Registry.PluginDefinition.t :=
  (Registry.PluginDefinition.exportName plugin, plugin).

Definition nameConflict (name : string) : error :=
  PlainError ("plugin name conflict: " ++ name).



(** The outcome of validating [impl] under [name] in the pluginMap-based
    loader. *)
Definition PluginMap_validation (that : PluginMap.PluginLoader) (name : string)
    (impl : value) : outcome () :=
  runValidate (PluginMap.pluginValidators that !! name) impl.

(** [that] with [buckets] for its [pluginMap]. *)
Definition withPluginMap (that : PluginMap.PluginLoader)
    (buckets : list (string * list value)) : PluginMap.PluginLoader :=
  {| PluginMap.pluginNames := PluginMap.pluginNames that;
     PluginMap.pluginMap := buckets;
     PluginMap.pluginValidators := PluginMap.pluginValidators that |}.

(** A registry-based loader and a pluginMap-based loader that know the same
    names in the same order, validate alike and hold the same buckets. *)
Definition simulates (this : Registry.PluginLoader)
    (that : PluginMap.PluginLoader) : Prop :=
  Registry.exportNames this = PluginMap.pluginNames that
  ∧ Registry.loaded this = PluginMap.pluginMap that
  ∧ ∀ name impl, name ∈ PluginMap.pluginNames that →
      Registry_validation this name impl = PluginMap_validation that name impl.

(** The driver calls [load] once per module, in order; [loadEach] collects
    the outcome of every call, going on after a call that throws. *)
Fixpoint Registry_loadEach (ms : list value) (this : Registry.PluginLoader)
  : list (outcome bool) * Registry.PluginLoader :=
  match ms with
  | [] => ([], this)
  | m :: ms =>
      let r := Registry.load m this in
      let rs := Registry_loadEach ms r.2 in
      (r.1 :: rs.1, rs.2)
  end.

Fixpoint PluginMap_loadEach (ms : list value) (that : PluginMap.PluginLoader)
  : list (outcome bool) * PluginMap.PluginLoader :=
  match ms with
  | [] => ([], that)
  | m :: ms =>
      let r := PluginMap.load m that in
      let rs := PluginMap_loadEach ms r.2 in
      (r.1 :: rs.1, rs.2)
  end.

(** The loader built from [MochaPlugins]. *)
Definition Registry_shipped (callHook : userCall → promise) : Registry.PluginLoader :=
  {| Registry.registered := entry <$> Registry.MochaPlugins callHook;
     Registry.loaded := [("mochaHooks", []); ("mochaGlobalSetup", []);
                         ("mochaGlobalTeardown", [])] |}.

(** A root-hooks export of the wrong shape: an array, or neither a function
    nor an object. *)
Definition malformedRootHooks (value : value) : Prop :=
  isArray value = true
  ∨ (typeof value ≠ "function" ∧ typeof value ≠ "object").

(** A function, or an array all of whose elements are functions. *)
Definition functionOrFunctions (value : value) : Prop :=
  typeof value = "function"
  ∨ ∃ items, value = VArr items
             ∧ Forall (λ item, typeof item = "function") items.

(** A pluginMap-based loader as its constructor leaves it, given distinct
    names, and as [load] keeps it. *)
Definition PluginMap_wf (that : PluginMap.PluginLoader) : Prop :=
  NoDup (PluginMap.pluginNames that)
  ∧ Map_keys (PluginMap.pluginMap that) = PluginMap.pluginNames that.

Definition PluginMap_accepted (that : PluginMap.PluginLoader) (m : value)
    (name : string) : Prop :=
  exports m name → PluginMap_validation that name (get m name) = Returns ().

(** The registry-based loader that knows the names of [that], with the
    validators of [that] and no aggregator, and holds the buckets of
    [that]. *)
Definition asRegistry (that : PluginMap.PluginLoader) : Registry.PluginLoader :=
  {| Registry.registered :=
       (λ name, (name,
                 {| Registry.PluginDefinition.exportName := name;
                    Registry.PluginDefinition.optionName := None;
                    Registry.PluginDefinition.validate :=
                      PluginMap.pluginValidators that !! name;
                    Registry.PluginDefinition.finalize := None |}))
       <$> PluginMap.pluginNames that;
     Registry.loaded := PluginMap.pluginMap that |}.


(** Two kinds that are given the same option name. *)
Definition sharedOptionKinds : list Registry.PluginDefinition.t :=
  [ {| Registry.PluginDefinition.exportName := "first";
       Registry.PluginDefinition.optionName := Some "shared";
       Registry.PluginDefinition.validate := None;
       Registry.PluginDefinition.finalize := Some (λ impls, Returns (VArr impls)) |};
    {| Registry.PluginDefinition.exportName := "second";
       Registry.PluginDefinition.optionName := Some "shared";
       Registry.PluginDefinition.validate := None;
       Registry.PluginDefinition.finalize := Some (λ impls, Returns (VArr impls)) |} ].

(** What the modules [ms] contribute to the kind [name], in module order
    and, within a module, in the order of its export. *)
Definition contributionsOf (name : string) (ms : list value) : list value :=
  ms ≫= λ m, if decide (isObject m = true ∧ exports m name)
             then castArray (get m name) else [].

(** Every export of [m] that [load] finds passes the validation of its
    kind. *)
Definition validModule (this : Registry.PluginLoader) (m : value) : Prop :=
  Forall (accepted this m) (Registry.exportNames this).

(** ** Sample inputs *)

(** User code: the callback [VFun 3] returns
    [{beforeAll: VFun 4, beforeEach: VFun 7}] after 20 ticks and [VFun 5]
    returns [{afterEach: VFun 6}] after 10 ticks, so that the later
    contribution settles first; an object whose [then] is [VFun 8] is adopted
    to [{afterAll: VFun 9}] after 5 ticks; no other call settles. *)
Definition sampleHooks (call : userCall) : promise :=
  match call with
  | CallHook 3 =>
      SettlesAt 20 (Fulfil (VObj {[ "beforeAll" := VFun 4; "beforeEach" := VFun 7 ]}))
  | CallHook 5 => SettlesAt 10 (Fulfil (VObj {[ "afterEach" := VFun 6 ]}))
  | CallThen 8 _ => SettlesAt 5 (Fulfil (VObj {[ "afterAll" := VFun 9 ]}))
  | _ => NeverSettles
  end.

(** Five modules: two export a hook object (one also exports global setup
    functions), one exports the number 42, one exports the callback
    [VFun 3] and one the callback [VFun 5] next to an unrelated name. *)
Definition sampleModules : list value :=
  [ VObj {[ "mochaHooks" := VObj {[ "beforeEach" := VFun 1 ]} ]};
    VObj {[ "mochaHooks" := VObj {[ "afterAll" := VFun 2 ]};
            "mochaGlobalSetup" := VArr [VFun 10; VFun 11] ]};
    VNum 42;
    VObj {[ "mochaHooks" := VFun 3 ]};
    VObj {[ "mochaHooks" := VFun 5; "unrelated" := VStr "x" ]} ].

(** The object forms of the root-hook contributions of [sampleModules]. *)
Definition sampleObjects : list value :=
  [ VObj {[ "beforeEach" := VFun 1 ]};
    VObj {[ "afterAll" := VFun 2 ]};
    VObj {[ "beforeAll" := VFun 4; "beforeEach" := VFun 7 ]};
    VObj {[ "afterEach" := VFun 6 ]} ].

(** A module whose root hooks are an object with a callable [then], and
    the object it is adopted to by [sampleHooks]. *)
Definition thenableModule : value :=
  VObj {[ "mochaHooks" := VObj {[ "then" := VFun 8 ]} ]}.

Definition thenableObject : value := VObj {[ "afterAll" := VFun 9 ]}.


(** A module with a valid root-hooks export and a malformed global setup
    export. *)
Definition halfValidModule : value :=
  VObj {[ "mochaHooks" := VObj ∅; "mochaGlobalSetup" := VNum 42 ]}.

#[global] Instance validModule_dec this m : Decision (validModule this m).
Proof. unfold validModule. apply _. Defined.

#[global] Instance Registry_wf_dec this : Decision (Registry_wf this).
Proof. unfold Registry_wf. apply _. Defined.

#[global] Instance PluginMap_wf_dec that : Decision (PluginMap_wf that).
Proof. unfold PluginMap_wf. apply _. Defined.

#[global] Instance PluginMap_accepted_dec that m name :
  Decision (PluginMap_accepted that m name).
Proof. unfold PluginMap_accepted. apply _. Defined.

(** ** Notions about repeated calls *)






(** An aggregator of the registry-based loader above, as user code without
    effects. *)
Definition pureAggregator (aggregator : list value → outcome value)
    (n : nat) (impls : list value) : Stateful.aggregation :=
  {| Stateful.result := aggregator impls; Stateful.bucket := impls |}.

Definition pureDefinition (plugin : Registry.PluginDefinition.t)
  : Stateful.PluginDefinition.t :=
  {| Stateful.PluginDefinition.exportName :=
       Registry.PluginDefinition.exportName plugin;
     Stateful.PluginDefinition.optionName :=
       Registry.PluginDefinition.optionName plugin;
     Stateful.PluginDefinition.validate :=
       Registry.PluginDefinition.validate plugin;
     Stateful.PluginDefinition.finalize :=
       pureAggregator <$> Registry.PluginDefinition.finalize plugin |}.

(** A loader of the embedding above as a loader of this one. *)
Definition pureLoader (this : Registry.PluginLoader) : Stateful.PluginLoader :=
  {| Stateful.registered := prod_map id pureDefinition <$> Registry.registered this;
     Stateful.loaded := Registry.loaded this |}.






(** ** Notions used in the further properties *)

(** [p] is rejected with [e], at whatever time. *)
Definition rejectsWith (p : promise) (e : error) : Prop :=
  ∃ t, p = SettlesAt t (Reject e).

(** The first rejection among [evs], in list order: its time, the index of
    the promise and the reason. *)
Fixpoint firstReject (evs : list event) : option (nat * nat * error) :=
  match evs with
  | [] => None
  | ev :: evs' =>
      match ev_settlement ev with
      | Reject e => Some (ev_time ev, ev_index ev, e)
      | Fulfil _ => firstReject evs'
      end
  end.

(** The number of fulfilments among [evs]. *)
Fixpoint fulfilments (evs : list event) : nat :=
  match evs with
  | [] => 0
  | ev :: evs' =>
      match ev_settlement ev with
      | Reject _ => fulfilments evs'
      | Fulfil _ => S (fulfilments evs')
      end
  end.

#[global] Instance before_transitive : Transitive before.
Proof. intros e1 e2 e3. unfold before. lia. Qed.

#[global] Instance before_total : Total before.
Proof. intros e1 e2. unfold before. lia. Qed.

(** A promise that is not fulfilled: rejected, or never settled. *)
Definition notFulfilled (p : promise) : Prop :=
  match p with
  | SettlesAt _ (Fulfil _) => False
  | _ => True
  end.

#[global] Instance notFulfilled_dec p : Decision (notFulfilled p).
Proof. destruct p as [t [v|e]|]; simpl; apply _. Defined.

(** The promise at position [i], rejected with [e] at time [t], is the
    first of [promises] to be rejected: any other rejection comes later, or
    at the same tick from a later position. *)
Definition firstRejection (promises : list promise) (i t : nat) (e : error)
  : Prop :=
  promises !! i = Some (SettlesAt t (Reject e))
  ∧ ∀ j t' e', promises !! j = Some (SettlesAt t' (Reject e')) →
      t < t' ∨ (t = t' ∧ i ≤ j).


(** [finalize] gets past the bucket [entry]: the bucket is empty, or its
    kind is registered and has no aggregator or one that returns. *)
Definition finalizes (this : Registry.PluginLoader)
    (entry : string * list value) : Prop :=
  entry.2 = []
  ∨ match Map_get entry.1 (Registry.registered this) with
    | None => False
    | Some plugin =>
        match Registry.PluginDefinition.finalize plugin with
        | None => True
        | Some aggregator =>
            match aggregator entry.2 with
            | Returns _ => True
            | _ => False
            end
        end
    end.

#[global] Instance finalizes_dec this entry : Decision (finalizes this entry).
Proof.
  unfold finalizes.
  destruct (Map_get entry.1 (Registry.registered this)) as [plugin|];
    [|apply _].
  destruct (Registry.PluginDefinition.finalize plugin) as [aggregator|];
    [|apply _].
  destruct (aggregator entry.2); apply _.
Defined.




(** * Properties *)

(** ** Facts about [Map] *)

Section JSMapFacts.
Context {V : Type}.
Implicit Types (m : list (string * V)) (k : string) (v : V).

Lemma Map_get_set_eq k v m : Map_get k (Map_set k v m) = Some v.
Proof.
  induction m as [|[k' v'] m IH]; simpl.
  - by rewrite decide_True.
  - destruct (decide (k' = k)) as [->|Hne]; simpl.
    + by rewrite decide_True.
    + by rewrite decide_False.
Qed.

Lemma Map_get_set_ne k k' v m :
  k ≠ k' → Map_get k' (Map_set k v m) = Map_get k' m.
Proof.
  intros Hne. induction m as [|[k0 v0] m IH]; simpl.
  - by rewrite decide_False.
  - destruct (decide (k0 = k)) as [->|Hne0]; simpl.
    + by rewrite !decide_False.
    + destruct (decide (k0 = k')); [done | apply IH].
Qed.

Lemma Map_get_is_Some k m : is_Some (Map_get k m) ↔ k ∈ Map_keys m.
Proof.
  unfold Map_keys. induction m as [|[k' v'] m IH]; simpl.
  - split; [intros [? [=]] | by intros ?%elem_of_nil].
  - rewrite elem_of_cons. destruct (decide (k' = k)) as [->|Hne].
    + split; eauto.
    + rewrite IH. split; [by right | intros [->|?]; done].
Qed.

Lemma Map_get_None k m : Map_get k m = None ↔ k ∉ Map_keys m.
Proof. rewrite <- Map_get_is_Some, eq_None_not_Some. done. Qed.

Lemma Map_has_true k m : Map_has k m = true ↔ k ∈ Map_keys m.
Proof.
  unfold Map_has. rewrite <- Map_get_is_Some.
  split; [apply bool_decide_eq_true_1 | apply bool_decide_eq_true_2].
Qed.

Lemma Map_get_elem_of k v m : Map_get k m = Some v → (k, v) ∈ m.
Proof.
  induction m as [|[k' v'] m IH]; simpl; [done|].
  destruct (decide (k' = k)) as [->|Hne].
  - intros [= ->]. left.
  - intros ?. right. auto.
Qed.

Lemma Map_get_NoDup k v m :
  NoDup (Map_keys m) → (k, v) ∈ m → Map_get k m = Some v.
Proof.
  unfold Map_keys. induction m as [|[k' v'] m IH]; simpl.
  - by intros _ ?%elem_of_nil.
  - intros [Hnotin Hnd]%NoDup_cons [Heq|Hin]%elem_of_cons.
    + injection Heq as -> ->. by rewrite decide_True.
    + destruct (decide (k' = k)) as [->|Hne]; [|auto].
      exfalso. apply Hnotin. apply list_elem_of_fmap. by exists (k, v).
Qed.

Lemma Map_keys_set_in k v m :
  k ∈ Map_keys m → Map_keys (Map_set k v m) = Map_keys m.
Proof.
  unfold Map_keys. induction m as [|[k' v'] m IH]; simpl.
  - by intros ?%elem_of_nil.
  - intros Hin. destruct (decide (k' = k)) as [->|Hne]; simpl; [done|].
    f_equal. apply IH. apply elem_of_cons in Hin as [<-|?]; done.
Qed.

Lemma Map_set_fresh k v m : k ∉ Map_keys m → Map_set k v m = m ++ [(k, v)].
Proof.
  unfold Map_keys. induction m as [|[k' v'] m IH]; simpl; [done|].
  intros Hnotin. apply not_elem_of_cons in Hnotin as [Hne Hnotin].
  rewrite decide_False by done. by rewrite IH.
Qed.

Lemma Map_keys_fmap_pair (names : list string) v :
  Map_keys ((λ name, (name, v)) <$> names) = names.
Proof.
  unfold Map_keys. induction names as [|name names IH]; simpl; [done|].
  f_equal. exact IH.
Qed.

(** A map created from distinct keys lists them in the order given. *)
Lemma Map_new_NoDup (names : list string) v :
  NoDup names →
  Map_new ((λ name, (name, v)) <$> names) = (λ name, (name, v)) <$> names.
Proof.
  unfold Map_new.
  cut (∀ done_ names, NoDup (done_ ++ names) →
         fold_left (λ m kv, Map_set kv.1 kv.2 m)
           ((λ name, (name, v)) <$> names) ((λ name, (name, v)) <$> done_)
         = (λ name, (name, v)) <$> (done_ ++ names)).
  { intros Hcut Hnd. apply (Hcut [] names Hnd). }
  intros done_ names'. revert done_.
  induction names' as [|name names' IH]; intros done_ Hnd; simpl.
  - by rewrite app_nil_r.
  - rewrite Map_set_fresh.
    + replace (((λ name0, (name0, v)) <$> done_) ++ [(name, v)])
        with ((λ name0, (name0, v)) <$> (done_ ++ [name]))
        by by rewrite fmap_app.
      rewrite IH; rewrite <- (assoc_L (++)); done.
    + rewrite Map_keys_fmap_pair.
      apply NoDup_app in Hnd as (_ & Hdisj & _).
      intros Hin. apply (Hdisj _ Hin). left.
Qed.
End JSMapFacts.

(** ** Facts about [Promise.all] *)

Lemma fold_onSettle_fulfil evs values :
  Forall isFulfil evs → evs ≠ [] →
  fold_left onSettle evs (Waiting values (length evs))
  = Settled (Returns (default VUndefined <$> fold_left store evs values)).
Proof.
  revert values. induction evs as [|ev evs IH]; intros values Hall Hne; [done|].
  apply Forall_cons in Hall as [[v Hv] Hall].
  simpl. unfold store at 2. rewrite Hv.
  destruct evs as [|ev' evs].
  - done.
  - rewrite decide_False by (simpl; lia).
    replace (length (ev' :: evs) - 0) with (length (ev' :: evs)) by lia.
    by apply IH.
Qed.

Lemma store_commute values e1 e2 :
  ev_index e1 ≠ ev_index e2 →
  store (store values e1) e2 = store (store values e2) e1.
Proof.
  intros Hne. unfold store.
  destruct (ev_settlement e1), (ev_settlement e2); try done.
  by apply list_insert_insert_ne.
Qed.

(** The order in which fulfilments arrive does not matter to the slots. *)
Lemma store_Permutation evs evs' values :
  evs ≡ₚ evs' → NoDup (ev_index <$> evs) →
  fold_left store evs values = fold_left store evs' values.
Proof.
  intros Hperm. revert values.
  induction Hperm as [|x l l' Hperm IH|x y l|l l' l'' H1 IH1 H2 IH2];
    intros values Hnd; simpl in *.
  - done.
  - apply NoDup_cons in Hnd as [_ Hnd]. by apply IH.
  - f_equal. apply store_commute.
    apply NoDup_cons in Hnd as [Hnotin _].
    intros Heq. apply Hnotin. rewrite Heq. left.
  - rewrite IH1 by done. apply IH2. by rewrite <- H1.
Qed.

Lemma eventsFrom_index_ge i promises ev :
  ev ∈ eventsFrom i promises → i ≤ ev_index ev.
Proof.
  revert i. induction promises as [|p promises IH]; intros i; simpl.
  - by intros ?%elem_of_nil.
  - destruct p as [t s|].
    + intros [->|Hin]%elem_of_cons; [simpl; lia|].
      apply IH in Hin. lia.
    + intros Hin. apply IH in Hin. lia.
Qed.

Lemma eventsFrom_NoDup i promises :
  NoDup (ev_index <$> eventsFrom i promises).
Proof.
  revert i. induction promises as [|p promises IH]; intros i; simpl.
  - constructor.
  - destruct p as [t s|]; [|apply IH].
    simpl. constructor; [|apply IH].
    intros (ev & Heq & Hin)%list_elem_of_fmap.
    apply eventsFrom_index_ge in Hin. simpl in Heq. lia.
Qed.

Lemma eventsFrom_fulfilled i promises vs :
  Forall2 fulfilsWith promises vs →
  Forall isFulfil (eventsFrom i promises)
  ∧ length (eventsFrom i promises) = length promises.
Proof.
  intros Hall. revert i.
  induction Hall as [|p v promises vs [t ->] _ IH]; intros i; simpl.
  - by split.
  - destruct (IH (S i)) as [IH1 IH2]. split.
    + constructor; [by exists v | done].
    + by rewrite IH2.
Qed.

Lemma store_eventsFrom promises vs (pre : list (option value)) :
  Forall2 fulfilsWith promises vs →
  fold_left store (eventsFrom (length pre) promises)
    (pre ++ replicate (length promises) None)
  = pre ++ (Some <$> vs).
Proof.
  intros Hall. revert pre.
  induction Hall as [|p v promises vs [t ->] _ IH]; intros pre; simpl.
  - done.
  - unfold store at 2. simpl.
    replace (<[length pre:=Some v]> (pre ++ None :: replicate (length promises) None))
      with ((pre ++ [Some v]) ++ replicate (length promises) None).
    + replace (S (length pre)) with (length (pre ++ [Some v]))
        by (rewrite length_app; simpl; lia).
      rewrite IH. by rewrite <- (assoc_L (++)).
    + rewrite insert_app_r_alt by lia.
      replace (length pre - length pre) with 0 by lia.
      by rewrite <- (assoc_L (++)).
Qed.

(** When every input promise is fulfilled, [Promise.all] is fulfilled with
    the values in the order of the input array, whatever the times at which
    the inputs settle. *)
Lemma Promise_all_fulfilled promises vs :
  Forall2 fulfilsWith promises vs → Promise_all promises = Returns vs.
Proof.
  intros Hall. unfold Promise_all.
  destruct (decide (length promises = 0)) as [Hz|Hnz].
  - apply length_zero_iff_nil in Hz as ->.
    by apply Forall2_nil_inv_l in Hall as ->.
  - destruct (eventsFrom_fulfilled 0 _ _ Hall) as [Hful Hlen].
    pose proof (merge_sort_Permutation before (eventsFrom 0 promises)) as Hperm.
    set (sorted := merge_sort before (eventsFrom 0 promises)) in *.
    assert (length sorted = length promises) as Hlen'
      by by rewrite Hperm.
    rewrite <- Hlen' at 2.
    rewrite fold_onSettle_fulfil.
    + rewrite (store_Permutation _ _ _ Hperm).
      * pose proof (store_eventsFrom promises vs [] Hall) as Hstore.
        simpl in Hstore. rewrite Hstore.
        rewrite <- list_fmap_compose. f_equal.
        clear. induction vs as [|v vs IH]; simpl; [done | by f_equal].
      * rewrite Hperm. apply eventsFrom_NoDup.
    + by rewrite Hperm.
    + intros Hnil. rewrite Hnil in Hlen'. simpl in Hlen'. lia.
Qed.

(** ** Facts about [reduceM] *)

Ltac unfoldM :=
  unfold mbind, M_bind, mret, M_ret, getState, putState, await, throw, invoke
    in *.

Lemma reduceM_app {S A B} (f : B → A → M S B) l1 l2 acc s :
  reduceM f (l1 ++ l2) acc s
  = match reduceM f l1 acc s with
    | (Returns acc', s') => reduceM f l2 acc' s'
    | (Throws e, s') => (Throws e, s')
    | (Pending, s') => (Pending, s')
    end.
Proof.
  revert acc s. induction l1 as [|x l1 IH]; intros acc s; simpl; [done|].
  unfoldM. destruct (f acc x s) as [[acc'|e|] s']; auto.
Qed.

(** A list splits at the first element failing a decidable property. *)
Lemma Forall_or_first_failure {A} (P : A → Prop) `{!∀ x, Decision (P x)}
    (l : list A) :
  Forall P l ∨ ∃ pre k post, l = pre ++ k :: post ∧ Forall P pre ∧ ¬ P k.
Proof.
  induction l as [|x l IH]; [by left|].
  destruct (decide (P x)) as [HP|HnP].
  - destruct IH as [IH|(pre & k & post & -> & Hpre & Hk)].
    + left. by constructor.
    + right. exists (x :: pre), k, post. split_and!; [done| by constructor |done].
  - right. exists [], x, l. by split_and!.
Qed.

(** ** The root-hook aggregation *)

Lemma prop_over_emptyHooks obj key :
  key ∈ ["beforeAll"; "beforeEach"; "afterAll"; "afterEach"] →
  castArray (prop (ownProps obj ∪ emptyHooks) key) = contributed key obj.
Proof.
  intros Hkey. unfold prop, contributed.
  destruct (ownProps obj !! key) as [v|] eqn:Hlook.
  - by rewrite (lookup_union_Some_l _ _ _ _ Hlook).
  - rewrite lookup_union_r by done.
    repeat (apply elem_of_cons in Hkey as [->|Hkey]; [by vm_compute|]).
    by apply elem_of_nil in Hkey.
Qed.

Lemma RootHookSet_eq r1 r2 :
  beforeAll r1 = beforeAll r2 → beforeEach r1 = beforeEach r2 →
  afterAll r1 = afterAll r2 → afterEach r1 = afterEach r2 → r1 = r2.
Proof. destruct r1, r2; simpl; congruence. Qed.

Ltac solve_fold_mergeHook mergeHook :=
  let objs := fresh "objs" in let acc := fresh "acc" in
  let obj := fresh "obj" in let IH := fresh "IH" in
  intros objs; induction objs as [|obj objs IH]; intros acc; simpl;
  [ apply RootHookSet_eq; simpl; by rewrite app_nil_r
  | rewrite IH; unfold mergeHook; simpl;
    rewrite !prop_over_emptyHooks by set_solver;
    apply RootHookSet_eq; simpl; by rewrite (assoc_L (++)) ].

Lemma Registry_fold_mergeHook objs acc :
  fold_left Registry.mergeHook objs acc
  = {| beforeAll := beforeAll acc ++ beforeAll (mergedHooks objs);
       beforeEach := beforeEach acc ++ beforeEach (mergedHooks objs);
       afterAll := afterAll acc ++ afterAll (mergedHooks objs);
       afterEach := afterEach acc ++ afterEach (mergedHooks objs) |}.
Proof. revert objs acc. solve_fold_mergeHook Registry.mergeHook. Qed.

Lemma PluginMap_fold_mergeHook objs acc :
  fold_left PluginMap.mergeHook objs acc
  = {| beforeAll := beforeAll acc ++ beforeAll (mergedHooks objs);
       beforeEach := beforeEach acc ++ beforeEach (mergedHooks objs);
       afterAll := afterAll acc ++ afterAll (mergedHooks objs);
       afterEach := afterEach acc ++ afterEach (mergedHooks objs) |}.
Proof. revert objs acc. solve_fold_mergeHook PluginMap.mergeHook. Qed.

Section Aggregation.
Variable callHook : userCall → promise.

Lemma fulfilsWith_itself hook obj :
  obj = hook ↔ fulfilsWith (SettlesAt 0 (Fulfil hook)) obj.
Proof. split; [intros ->; by exists 0 | by intros [t [= _ ->]]]. Qed.

Lemma Registry_resolveHook_resolvesTo hook obj :
  resolvesTo callHook hook obj
  ↔ fulfilsWith (Registry.resolveHook callHook hook) obj.
Proof.
  unfold resolvesTo, Registry.resolveHook.
  destruct hook as [| | | | |f| |props]; cbn [get];
    try apply fulfilsWith_itself; [done|].
  destruct (default VUndefined (props !! "then"));
    try apply fulfilsWith_itself; done.
Qed.

Lemma PluginMap_resolveHook_resolvesTo hook obj :
  resolvesTo callHook hook obj
  ↔ fulfilsWith (PluginMap.resolveHook callHook hook) obj.
Proof. apply Registry_resolveHook_resolvesTo. Qed.

Lemma Registry_resolveHook_fulfils cs objs :
  Forall2 (resolvesTo callHook) cs objs
  ↔ Forall2 fulfilsWith (Registry.resolveHook callHook <$> cs) objs.
Proof.
  rewrite Forall2_fmap_l. split; intros Hall;
    (eapply Forall2_impl; [exact Hall|]); intros hook obj;
    apply Registry_resolveHook_resolvesTo.
Qed.

Lemma PluginMap_resolveHook_fulfils cs objs :
  Forall2 (resolvesTo callHook) cs objs
  ↔ Forall2 fulfilsWith (PluginMap.resolveHook callHook <$> cs) objs.
Proof. apply Registry_resolveHook_fulfils. Qed.

Lemma Registry_mochaHooks_finalize_resolved cs objs :
  cs ≠ [] → Forall2 (resolvesTo callHook) cs objs →
  Registry.mochaHooks_finalize callHook cs
  = Returns (RootHookSet_object (mergedHooks objs)).
Proof.
  intros Hne Hall. unfold Registry.mochaHooks_finalize.
  rewrite decide_True by by destruct cs.
  rewrite (Promise_all_fulfilled _ objs)
    by by apply Registry_resolveHook_fulfils.
  by rewrite Registry_fold_mergeHook.
Qed.

Lemma PluginMap_aggregateRootHooks_resolved cs objs :
  Forall2 (resolvesTo callHook) cs objs →
  PluginMap.aggregateRootHooks callHook (Some cs)
  = Returns (RootHookSet_object (mergedHooks objs)).
Proof.
  intros Hall. unfold PluginMap.aggregateRootHooks. simpl.
  rewrite (Promise_all_fulfilled _ objs)
    by by apply PluginMap_resolveHook_fulfils.
  by rewrite PluginMap_fold_mergeHook.
Qed.
End Aggregation.

(** ** [load] of the registry-based loader *)

Section RegistryLoad.
Implicit Types (this : Registry.PluginLoader) (m impl : value).

Lemma Registry_load_step_absent m isFound name this :
  ¬ exports m name →
  Registry.load_step m isFound name this = (Returns isFound, this).
Proof.
  unfold exports, Registry.load_step. intros Hf.
  by destruct (truthy (get m name)).
Qed.

Lemma Registry_load_step_accepted m isFound name this impls :
  exports m name →
  name ∈ Registry.exportNames this →
  Registry_validation this name (get m name) = Returns () →
  Map_get name (Registry.loaded this) = Some impls →
  Registry.load_step m isFound name this
  = (Returns true,
     {| Registry.registered := Registry.registered this;
        Registry.loaded := Map_set name (impls ++ castArray (get m name))
                             (Registry.loaded this) |}).
Proof.
  unfold exports, Registry.load_step, Registry_validation, runValidate.
  intros -> [plugin Hreg]%Map_get_is_Some Hval Hget.
  unfoldM. rewrite Hreg in *.
  destruct (Registry.PluginDefinition.validate plugin) as [validate|].
  - rewrite Hval. by rewrite Hget.
  - by rewrite Hget.
Qed.

Lemma Registry_load_step_rejected m isFound name this o :
  exports m name →
  name ∈ Registry.exportNames this →
  Registry_validation this name (get m name) = o →
  o ≠ Returns () →
  Registry.load_step m isFound name this = (aborts o, this).
Proof.
  unfold exports, Registry.load_step, Registry_validation, runValidate.
  intros -> [plugin Hreg]%Map_get_is_Some Hval Hne.
  unfoldM. rewrite Hreg in *.
  destruct (Registry.PluginDefinition.validate plugin) as [validate|].
  - rewrite Hval. by destruct o as [[]| |].
  - by subst o.
Qed.

Lemma Registry_load_step_no_bucket m isFound name this :
  exports m name →
  name ∈ Registry.exportNames this →
  Registry_validation this name (get m name) = Returns () →
  Map_get name (Registry.loaded this) = None →
  Registry.load_step m isFound name this
  = (Throws (TypeError "this.loaded.get(...) is not iterable"), this).
Proof.
  unfold exports, Registry.load_step, Registry_validation, runValidate.
  intros -> [plugin Hreg]%Map_get_is_Some Hval Hget.
  unfoldM. rewrite Hreg in *.
  destruct (Registry.PluginDefinition.validate plugin) as [validate|].
  - rewrite Hval. by rewrite Hget.
  - by rewrite Hget.
Qed.

Lemma grows_refl this : grows this this.
Proof.
  split_and!; [done..|]. intros name impls ->. exists []. by rewrite app_nil_r.
Qed.

Lemma grows_trans this1 this2 this3 :
  grows this1 this2 → grows this2 this3 → grows this1 this3.
Proof.
  intros (Hr1 & Hk1 & Hg1) (Hr2 & Hk2 & Hg2). split_and!; [congruence..|].
  intros name impls Hsome. destruct (Hg1 _ _ Hsome) as [extra1 H1].
  destruct (Hg2 _ _ H1) as [extra2 H2]. exists (extra1 ++ extra2).
  by rewrite (assoc_L (++)).
Qed.

Lemma grows_append this name impls extra :
  Map_get name (Registry.loaded this) = Some impls →
  grows this {| Registry.registered := Registry.registered this;
                Registry.loaded := Map_set name (impls ++ extra)
                                     (Registry.loaded this) |}.
Proof.
  intros Hget. split_and!; simpl; [done| |].
  - apply Map_keys_set_in, Map_get_is_Some. by rewrite Hget.
  - intros name' impls' Hsome. destruct (decide (name = name')) as [<-|Hne].
    + rewrite Map_get_set_eq. exists extra. congruence.
    + rewrite Map_get_set_ne by done. exists []. by rewrite app_nil_r.
Qed.

Lemma Registry_load_step_grows m isFound name this :
  grows this (Registry.load_step m isFound name this).2.
Proof.
  unfold Registry.load_step. unfoldM.
  destruct (truthy (get m name)); [|apply grows_refl].
  destruct (Map_get name (Registry.registered this)) as [plugin|];
    [|apply grows_refl].
  destruct (Registry.PluginDefinition.validate plugin) as [validate|]; simpl.
  - destruct (validate (get m name)) as [[]|e|]; simpl; [|apply grows_refl..].
    destruct (Map_get name (Registry.loaded this)) as [impls|] eqn:Hget;
      simpl; [by apply grows_append | apply grows_refl].
  - destruct (Map_get name (Registry.loaded this)) as [impls|] eqn:Hget;
      simpl; [by apply grows_append | apply grows_refl].
Qed.

(** Whatever happens, [load] leaves the registry alone, keeps the keys of
    the buckets and only ever appends to a bucket. *)
Lemma Registry_load_steps_grows m names isFound this :
  grows this (reduceM (Registry.load_step m) names isFound this).2.
Proof.
  revert isFound this.
  induction names as [|name names IH]; intros isFound this; simpl.
  { apply grows_refl. }
  unfoldM.
  pose proof (Registry_load_step_grows m isFound name this) as Hstep.
  destruct (Registry.load_step m isFound name this) as [[b|e|] this1];
    simpl in Hstep; [|done..].
  eapply grows_trans; [exact Hstep | apply IH].
Qed.

Lemma Registry_load_grows m this : grows this (Registry.load m this).2.
Proof.
  unfold Registry.load.
  destruct (truthy m && bool_decide (typeof m = "object")); [|apply grows_refl].
  unfoldM. apply Registry_load_steps_grows.
Qed.

Lemma Registry_load_wf m this :
  Registry_wf this → Registry_wf (Registry.load m this).2.
Proof.
  intros [Hnd Hkeys]. destruct (Registry_load_grows m this) as (Hr & Hk & _).
  unfold Registry_wf, Registry.exportNames in *. rewrite Hr, Hk. done.
Qed.
Lemma Registry_load_steps_absent m names isFound this :
  Forall (λ name, ¬ exports m name) names →
  reduceM (Registry.load_step m) names isFound this = (Returns isFound, this).
Proof.
  induction 1 as [|name names Hname _ IH]; simpl; [done|].
  unfoldM. by rewrite Registry_load_step_absent.
Qed.

Lemma accepted_same_registry this this' m name :
  Registry.registered this' = Registry.registered this →
  accepted this m name → accepted this' m name.
Proof. unfold accepted, Registry_validation. by intros ->. Qed.

(** When every export found passes validation, all of them are appended
    and the result tells whether there was any. *)
Lemma Registry_load_steps_accepted m names isFound this :
  NoDup names →
  names ⊆ Registry.exportNames this →
  names ⊆ Map_keys (Registry.loaded this) →
  Forall (accepted this m) names →
  ∃ loaded',
    reduceM (Registry.load_step m) names isFound this
    = (Returns (isFound || bool_decide (Exists (exports m) names)),
       {| Registry.registered := Registry.registered this;
          Registry.loaded := loaded' |})
    ∧ Map_keys loaded' = Map_keys (Registry.loaded this)
    ∧ ∀ name, Map_get name loaded' = appended m names (Registry.loaded this) name.
Proof.
  revert isFound this.
  induction names as [|name names IH]; intros isFound this Hnd Hreg Hloaded Hacc.
  { exists (Registry.loaded this). cbn [reduceM]. split_and!; [|done|].
    - rewrite (bool_decide_eq_false_2 (Exists (exports m) []))
        by by intros ?%Exists_nil.
      rewrite orb_false_r. by destruct this.
    - intros name. unfold appended. rewrite decide_False; [done|].
      intros [?%elem_of_nil _]. done. }
  apply NoDup_cons in Hnd as [Hnotin Hnd].
  apply Forall_cons in Hacc as [Hname Hacc].
  assert (name ∈ Registry.exportNames this) as Hname_reg
    by (apply Hreg; left).
  assert (names ⊆ Registry.exportNames this) as Hreg'
    by (intros ??; apply Hreg; by right).
  assert (names ⊆ Map_keys (Registry.loaded this)) as Hloaded'
    by (intros ??; apply Hloaded; by right).
  simpl. unfoldM.
  destruct (decide (exports m name)) as [Hexp|Hnexp].
  - assert (is_Some (Map_get name (Registry.loaded this))) as [impls Hget].
    { apply Map_get_is_Some, Hloaded. left. }
    rewrite (Registry_load_step_accepted _ _ _ _ impls) by auto.
    set (this1 := {| Registry.registered := Registry.registered this;
                     Registry.loaded := Map_set name
                       (impls ++ castArray (get m name)) (Registry.loaded this) |}).
    assert (Map_keys (Registry.loaded this1) = Map_keys (Registry.loaded this))
      as Hkeys1.
    { simpl. apply Map_keys_set_in, Map_get_is_Some. by rewrite Hget. }
    destruct (IH true this1) as (loaded' & Hrun & Hkeys & Hgets); auto.
    { by rewrite Hkeys1. }
    exists loaded'. cbv beta iota. rewrite Hrun. split_and!.
    + rewrite (bool_decide_eq_true_2 (Exists _ (name :: names)))
        by by constructor.
      by rewrite orb_true_r.
    + by rewrite Hkeys.
    + intros name'. rewrite Hgets. unfold appended. simpl.
      destruct (decide (name = name')) as [<-|Hne].
      * rewrite Map_get_set_eq.
        rewrite decide_False by tauto.
        rewrite decide_True by (split; [left | done]).
        by rewrite Hget.
      * rewrite Map_get_set_ne by done.
        destruct (decide (name' ∈ names ∧ exports m name')) as [[]|Hn].
        -- by rewrite decide_True by (split; [by right | done]).
        -- rewrite decide_False; [done|].
           intros [[->|?]%elem_of_cons ?]; tauto.
  - rewrite Registry_load_step_absent by done.
    destruct (IH isFound this) as (loaded' & Hrun & Hkeys & Hgets); auto.
    exists loaded'. cbv beta iota. rewrite Hrun. split_and!.
    + f_equal. f_equal. f_equal. apply bool_decide_ext.
      rewrite Exists_cons. tauto.
    + done.
    + intros name'. rewrite Hgets. unfold appended.
      destruct (decide (name' ∈ names ∧ exports m name')) as [[]|Hn].
      * by rewrite decide_True by (split; [by right | done]).
      * rewrite decide_False; [done|].
        intros [[->|?]%elem_of_cons ?]; tauto.
Qed.

(** When the validator of [k] is the first to fail, [load] fails the same
    way, with the exports found before [k] already appended. *)
Lemma Registry_load_steps_rejected m pre k post isFound this o :
  NoDup (pre ++ k :: post) →
  pre ++ k :: post ⊆ Registry.exportNames this →
  pre ++ k :: post ⊆ Map_keys (Registry.loaded this) →
  Forall (accepted this m) pre →
  exports m k →
  Registry_validation this k (get m k) = o →
  o ≠ Returns () →
  ∃ loaded',
    reduceM (Registry.load_step m) (pre ++ k :: post) isFound this
    = (aborts o,
       {| Registry.registered := Registry.registered this;
          Registry.loaded := loaded' |})
    ∧ Map_keys loaded' = Map_keys (Registry.loaded this)
    ∧ ∀ name, Map_get name loaded' = appended m pre (Registry.loaded this) name.
Proof.
  intros Hnd Hreg Hloaded Hacc Hexp Hval Hne.
  destruct (Registry_load_steps_accepted m pre isFound this)
    as (loaded' & Hrun & Hkeys & Hgets); auto.
  { by apply NoDup_app in Hnd as (? & _ & _). }
  { intros name Hin. apply Hreg, elem_of_app. by left. }
  { intros name Hin. apply Hloaded, elem_of_app. by left. }
  exists loaded'. split_and!; [|done..].
  rewrite reduceM_app, Hrun. cbn [reduceM]. unfoldM.
  rewrite (Registry_load_step_rejected _ _ _ _ o);
    [by destruct o as [[]| |] |done| |done|done].
  apply Hreg, elem_of_app. right. left.
Qed.

End RegistryLoad.

(** ** [register] and the constructor of the registry-based loader *)

Section RegistryConstruction.
Implicit Types (this : Registry.PluginLoader)
  (plugin : Registry.PluginDefinition.t).

Lemma Map_keys_entries (defs : list Registry.PluginDefinition.t) :
  Map_keys (entry <$> defs) = Registry.PluginDefinition.exportName <$> defs.
Proof.
  unfold Map_keys. induction defs as [|d defs IH]; simpl; [done|].
  f_equal. exact IH.
Qed.

Lemma Registry_register_fresh plugin this :
  Registry.PluginDefinition.exportName plugin ∉ Map_keys (Registry.registered this) →
  Registry.register plugin this
  = (Returns (),
     {| Registry.registered := Registry.registered this ++ [entry plugin];
        Registry.loaded := Registry.loaded this |}).
Proof.
  intros Hfresh. unfold Registry.register. unfoldM.
  destruct (Map_has _ _) eqn:Hhas.
  - by apply Map_has_true in Hhas.
  - by rewrite Map_set_fresh.
Qed.

Lemma Registry_register_conflict plugin this :
  Registry.PluginDefinition.exportName plugin ∈ Map_keys (Registry.registered this) →
  Registry.register plugin this
  = (Throws (nameConflict (Registry.PluginDefinition.exportName plugin)), this).
Proof.
  intros Hin%Map_has_true. unfold Registry.register. unfoldM.
  by rewrite Hin.
Qed.

Lemma Registry_register_all defs this :
  NoDup (Map_keys (Registry.registered this)
         ++ (Registry.PluginDefinition.exportName <$> defs)) →
  reduceM (λ _ pluginDef, Registry.register pluginDef) defs () this
  = (Returns (),
     {| Registry.registered := Registry.registered this ++ (entry <$> defs);
        Registry.loaded := Registry.loaded this |}).
Proof.
  revert this. induction defs as [|d defs IH]; intros this Hnd; simpl.
  - rewrite app_nil_r. by destruct this.
  - unfoldM. rewrite Registry_register_fresh.
    + rewrite IH; simpl.
      * by rewrite <- (assoc_L (++)).
      * unfold Map_keys in *. rewrite fmap_app. simpl.
        by rewrite <- (assoc_L (++)).
    + apply NoDup_app in Hnd as (_ & Hdisj & _).
      intros Hin. apply (Hdisj _ Hin). left.
Qed.

Lemma Registry_register_all_conflict defs this :
  ¬ NoDup (Map_keys (Registry.registered this)
           ++ (Registry.PluginDefinition.exportName <$> defs)) →
  NoDup (Map_keys (Registry.registered this)) →
  ∃ name this',
    name ∈ Registry.PluginDefinition.exportName <$> defs
    ∧ reduceM (λ _ pluginDef, Registry.register pluginDef) defs () this
      = (Throws (nameConflict name), this').
Proof.
  revert this. induction defs as [|d defs IH]; intros this Hdup Hnd; simpl.
  - exfalso. apply Hdup. by rewrite app_nil_r.
  - unfoldM.
    destruct (decide (Registry.PluginDefinition.exportName d
                      ∈ Map_keys (Registry.registered this))) as [Hin|Hfresh].
    + rewrite Registry_register_conflict by done.
      eexists _, _. split; [left | done].
    + rewrite Registry_register_fresh by done.
      destruct (IH {| Registry.registered := Registry.registered this ++ [entry d];
                      Registry.loaded := Registry.loaded this |})
        as (name & this' & Hname & Hrun); simpl.
      * unfold Map_keys in *. rewrite fmap_app. simpl.
        by rewrite <- (assoc_L (++)).
      * unfold Map_keys in *. rewrite fmap_app. simpl.
        apply NoDup_app. split_and!; [done| |apply NoDup_singleton].
        intros x Hx ->%list_elem_of_singleton. done.
      * exists name, this'. split; [by right | done].
Qed.

(** The constructor succeeds exactly on definitions with distinct export
    names, and then gives each an empty bucket. *)
Lemma Registry_new_distinct defs :
  NoDup (Registry.PluginDefinition.exportName <$> defs) →
  Registry.new defs
  = Returns {| Registry.registered := entry <$> defs;
               Registry.loaded :=
                 (λ name, (name, [])) <$>
                   (Registry.PluginDefinition.exportName <$> defs) |}.
Proof.
  intros Hnd. unfold Registry.new, Registry.constructor. unfoldM. simpl.
  rewrite Registry_register_all by done. simpl.
  unfold Registry.exportNames. simpl.
  by rewrite Map_keys_entries, Map_new_NoDup.
Qed.

Lemma Registry_new_conflict defs :
  ¬ NoDup (Registry.PluginDefinition.exportName <$> defs) →
  ∃ name,
    name ∈ Registry.PluginDefinition.exportName <$> defs
    ∧ Registry.new defs = Throws (nameConflict name).
Proof.
  intros Hdup. unfold Registry.new, Registry.constructor. unfoldM. simpl.
  destruct (Registry_register_all_conflict defs
              {| Registry.registered := []; Registry.loaded := [] |})
    as (name & this' & Hname & Hrun); [done|constructor|].
  exists name. split; [done|]. by rewrite Hrun.
Qed.

Lemma Registry_new_wf defs this :
  Registry.new defs = Returns this → Registry_wf this.
Proof.
  destruct (decide (NoDup (Registry.PluginDefinition.exportName <$> defs)))
    as [Hnd|Hdup].
  - rewrite Registry_new_distinct by done. intros [= <-].
    unfold Registry_wf, Registry.exportNames. simpl.
    by rewrite Map_keys_entries, Map_keys_fmap_pair.
  - destruct (Registry_new_conflict defs Hdup) as (name & _ & ->). done.
Qed.
End RegistryConstruction.

(** ** [finalize] of the registry-based loader *)

Section RegistryFinalize.
Implicit Types (this : Registry.PluginLoader)
  (finalizedPlugins out : gmap string value).




End RegistryFinalize.

(** ** The two [load]s side by side *)

Section Simulation.
Implicit Types (this : Registry.PluginLoader) (that : PluginMap.PluginLoader).

Lemma withPluginMap_id that : withPluginMap that (PluginMap.pluginMap that) = that.
Proof. by destruct that. Qed.

Lemma simulates_withPluginMap this this' that :
  simulates this that →
  Registry.registered this' = Registry.registered this →
  simulates this' (withPluginMap that (Registry.loaded this')).
Proof.
  intros (Hnames & Hloaded & Hval) Hreg. split_and!; simpl.
  - unfold Registry.exportNames in *. by rewrite Hreg.
  - done.
  - intros name impl Hin.
    transitivity (Registry_validation this name impl);
      [unfold Registry_validation; by rewrite Hreg | by apply Hval].
Qed.

Lemma PluginMap_load_step_absent m isFound name that :
  ¬ exports m name →
  PluginMap.load_step m isFound name that = (Returns isFound, that).
Proof.
  unfold exports, PluginMap.load_step. intros Hf.
  by destruct (truthy (get m name)).
Qed.

Lemma PluginMap_load_step_accepted m isFound name that plugins :
  exports m name →
  PluginMap_validation that name (get m name) = Returns () →
  Map_get name (PluginMap.pluginMap that) = Some plugins →
  PluginMap.load_step m isFound name that
  = (Returns true,
     withPluginMap that
       (Map_set name (plugins ++ castArray (get m name))
          (PluginMap.pluginMap that))).
Proof.
  unfold exports, PluginMap.load_step, PluginMap_validation, runValidate.
  intros -> Hval Hget. unfoldM.
  destruct (PluginMap.pluginValidators that !! name) as [validate|].
  - rewrite Hval. by rewrite Hget.
  - by rewrite Hget.
Qed.

Lemma PluginMap_load_step_no_bucket m isFound name that :
  exports m name →
  PluginMap_validation that name (get m name) = Returns () →
  Map_get name (PluginMap.pluginMap that) = None →
  PluginMap.load_step m isFound name that
  = (Throws (TypeError "this.pluginMap.get(...) is not iterable"), that).
Proof.
  unfold exports, PluginMap.load_step, PluginMap_validation, runValidate.
  intros -> Hval Hget. unfoldM.
  destruct (PluginMap.pluginValidators that !! name) as [validate|].
  - rewrite Hval. by rewrite Hget.
  - by rewrite Hget.
Qed.

Lemma PluginMap_load_step_rejected m isFound name that o :
  exports m name →
  PluginMap_validation that name (get m name) = o →
  o ≠ Returns () →
  PluginMap.load_step m isFound name that = (aborts o, that).
Proof.
  unfold exports, PluginMap.load_step, PluginMap_validation, runValidate.
  intros -> Hval Hne. unfoldM.
  destruct (PluginMap.pluginValidators that !! name) as [validate|].
  - rewrite Hval. by destruct o as [[]| |].
  - by subst o.
Qed.

(** One step of either [load] does the same to both loaders, except that a
    missing bucket is reported under the name of the field consulted. *)
Lemma simulates_load_step m isFound name this that :
  simulates this that → name ∈ PluginMap.pluginNames that →
  name ∈ Map_keys (PluginMap.pluginMap that) →
  ∃ this',
    Registry.load_step m isFound name this
    = ((PluginMap.load_step m isFound name that).1, this')
    ∧ Registry.registered this' = Registry.registered this
    ∧ (PluginMap.load_step m isFound name that).2
      = withPluginMap that (Registry.loaded this').
Proof.
  intros (Hnames & Hloaded & Hval) Hin [plugins Hget]%Map_get_is_Some.
  pose proof (Hval name (get m name) Hin) as Hsame.
  assert (name ∈ Registry.exportNames this) as Hin' by by rewrite Hnames.
  destruct (decide (exports m name)) as [Hexp|Hnexp].
  2:{ rewrite Registry_load_step_absent, PluginMap_load_step_absent by done.
      exists this. cbn [fst snd]. by rewrite Hloaded, withPluginMap_id. }
  destruct (decide (PluginMap_validation that name (get m name) = Returns ()))
    as [Hok|Hbad].
  - rewrite (Registry_load_step_accepted _ _ _ _ plugins),
      (PluginMap_load_step_accepted _ _ _ _ plugins); try done; try congruence.
    eexists. cbn [fst snd]. split_and!; [reflexivity|reflexivity|].
    simpl. by rewrite Hloaded.
  - rewrite (Registry_load_step_rejected _ _ _ _ _ Hexp Hin' Hsame Hbad),
      (PluginMap_load_step_rejected _ _ _ _ _ Hexp eq_refl Hbad).
    exists this. cbn [fst snd]. by rewrite Hloaded, withPluginMap_id.
Qed.

Lemma simulates_load_steps m names isFound this that :
  simulates this that →
  names ⊆ PluginMap.pluginNames that →
  names ⊆ Map_keys (PluginMap.pluginMap that) →
  ∃ this',
    reduceM (Registry.load_step m) names isFound this
    = ((reduceM (PluginMap.load_step m) names isFound that).1, this')
    ∧ Registry.registered this' = Registry.registered this
    ∧ (reduceM (PluginMap.load_step m) names isFound that).2
      = withPluginMap that (Registry.loaded this').
Proof.
  revert isFound this that.
  induction names as [|name names IH]; intros isFound this that Hsim Hsub Hkeys.
  { exists this. cbn [reduceM]. unfoldM. cbn [fst snd].
    destruct Hsim as (_ & -> & _). by rewrite withPluginMap_id. }
  destruct (simulates_load_step m isFound name this that)
    as (this1 & HstepA & Hreg1 & HstepB); [done|apply Hsub; left|apply Hkeys; left|].
  cbn [reduceM]. unfoldM. rewrite HstepA.
  destruct (PluginMap.load_step m isFound name that) as [o that1].
  cbn [fst snd] in *. subst that1.
  destruct o as [b|e|]; [|by exists this1..].
  destruct (IH b this1 (withPluginMap that (Registry.loaded this1)))
    as (this' & HrunA & Hreg' & HrunB).
  - by apply (simulates_withPluginMap this).
  - intros ??. apply Hsub. by right.
  - simpl. destruct (Registry_load_step_grows m isFound name this) as (_ & Hk & _).
    rewrite HstepA in Hk. simpl in Hk. rewrite Hk.
    destruct Hsim as (_ & -> & _). intros ??. apply Hkeys. by right.
  - exists this'. rewrite HrunA, HrunB. split_and!; [done|congruence|done].
Qed.

(** [load] does the same to both loaders. *)
Lemma simulates_load m this that :
  simulates this that →
  PluginMap.pluginNames that ⊆ Map_keys (PluginMap.pluginMap that) →
  (Registry.load m this).1 = (PluginMap.load m that).1
  ∧ (PluginMap.load m that).2
    = withPluginMap that (Registry.loaded (Registry.load m this).2).
Proof.
  intros Hsim Hkeys. unfold Registry.load, PluginMap.load.
  destruct (truthy m && bool_decide (typeof m = "object")).
  2:{ cbn [fst snd]. unfoldM. cbn [fst snd].
      destruct Hsim as (_ & -> & _). by rewrite withPluginMap_id. }
  unfoldM.
  destruct (simulates_load_steps m (PluginMap.pluginNames that) false this that)
    as (this' & HrunA & Hreg & HrunB); [done..|].
  destruct Hsim as (Hnames & Hloaded & Hval).
  by rewrite Hnames, HrunA, HrunB.
Qed.

Lemma simulates_after_load m this that :
  simulates this that →
  PluginMap.pluginNames that ⊆ Map_keys (PluginMap.pluginMap that) →
  simulates (Registry.load m this).2 (PluginMap.load m that).2
  ∧ PluginMap.pluginNames (PluginMap.load m that).2
    ⊆ Map_keys (PluginMap.pluginMap (PluginMap.load m that).2).
Proof.
  intros Hsim Hkeys.
  destruct (simulates_load m this that Hsim Hkeys) as [_ ->].
  destruct (Registry_load_grows m this) as (Hreg & Hk & _).
  split.
  - by apply (simulates_withPluginMap this).
  - simpl. rewrite Hk. by destruct Hsim as (_ & -> & _).
Qed.
End Simulation.

(** ** Loading a sequence of modules *)


Lemma Registry_loadEach_wf ms this :
  Registry_wf this → Registry_wf (Registry_loadEach ms this).2.
Proof.
  revert this. induction ms as [|m ms IH]; intros this Hwf; simpl; [done|].
  by apply IH, Registry_load_wf.
Qed.

Lemma simulates_loadEach ms this that :
  simulates this that →
  PluginMap.pluginNames that ⊆ Map_keys (PluginMap.pluginMap that) →
  (Registry_loadEach ms this).1 = (PluginMap_loadEach ms that).1
  ∧ simulates (Registry_loadEach ms this).2 (PluginMap_loadEach ms that).2.
Proof.
  revert this that. induction ms as [|m ms IH]; intros this that Hsim Hkeys; simpl.
  - done.
  - destruct (simulates_load m this that Hsim Hkeys) as [Hres _].
    destruct (simulates_after_load m this that Hsim Hkeys) as [Hsim' Hkeys'].
    destruct (IH _ _ Hsim' Hkeys') as [IH1 IH2].
    split; [by f_equal | done].
Qed.

(** ** The loaders as shipped *)

Section Shipped.
Variable callHook : userCall → promise.

Lemma Registry_create_shipped :
  Registry.create callHook None = Returns (Registry_shipped callHook).
Proof.
  unfold Registry.create. simpl.
  rewrite Registry_new_distinct; [done|].
  apply (bool_decide_unpack _). by vm_compute.
Qed.

Lemma Registry_shipped_wf : Registry_wf (Registry_shipped callHook).
Proof. eapply Registry_new_wf, Registry_create_shipped. Qed.

Lemma PluginMap_create_shipped :
  PluginMap.create None None
  = {| PluginMap.pluginNames := PluginMap.PLUGIN_NAMES;
       PluginMap.pluginMap := [("mochaHooks", []); ("mochaGlobalSetup", []);
                               ("mochaGlobalTeardown", [])];
       PluginMap.pluginValidators := PluginMap.PluginValidators |}.
Proof. reflexivity. Qed.

Lemma simulates_shipped :
  simulates (Registry_shipped callHook) (PluginMap.create None None).
Proof.
  rewrite PluginMap_create_shipped. split_and!; simpl.
  - done.
  - done.
  - intros name impl Hin.
    repeat (apply elem_of_cons in Hin as [->|Hin]);
      [by vm_compute..|by apply elem_of_nil in Hin].
Qed.
End Shipped.

(** ** The built-in validators *)

Lemma existsb_not_function items :
  existsb (λ item, bool_decide (typeof item ≠ "function")) items = false
  ↔ Forall (λ item, typeof item = "function") items.
Proof.
  induction items as [|item items IH]; simpl.
  - split; [constructor | done].
  - rewrite orb_false_iff, IH, Forall_cons, bool_decide_eq_false.
    split; intros [H1 H2]; split; try done.
    + by destruct (decide (typeof item = "function")).
    + by intros ?.
Qed.

Lemma Registry_mochaHooks_validate_spec value :
  Registry.mochaHooks_validate value
  = if decide (malformedRootHooks value)
    then Throws (UnsupportedError
      "mochaHooks must be an object or a function returning (or fulfilling with) an object")
    else Returns ().
Proof.
  unfold Registry.mochaHooks_validate, malformedRootHooks, createUnsupportedError.
  destruct (decide _) as [[Harr|[Hf Ho]]|Hn].
  - by rewrite Harr.
  - by rewrite !bool_decide_eq_true_2, orb_true_r.
  - destruct (isArray value) eqn:Harr; [tauto|]. simpl.
    destruct (decide (typeof value = "function")) as [Hf|Hf].
    + by rewrite (bool_decide_eq_false_2 (typeof value ≠ "function")) by tauto.
    + destruct (decide (typeof value = "object")) as [Ho|Ho]; [|tauto].
      rewrite (bool_decide_eq_false_2 (typeof value ≠ "object")) by tauto.
      by rewrite andb_false_r.
Qed.

Lemma Registry_createFunctionArrayValidator_spec pluginType value :
  (functionOrFunctions value
   ∧ Registry.createFunctionArrayValidator pluginType value = Returns ())
  ∨ (¬ functionOrFunctions value
     ∧ Registry.createFunctionArrayValidator pluginType value
       = Throws (UnsupportedError
                   (pluginType ++ " must be a function or an array of functions"))).
Proof.
  unfold Registry.createFunctionArrayValidator, functionOrFunctions,
    createUnsupportedError.
  destruct value as [| |b|n|s|f|items|props];
    try (right; split; [intros [[=]|(? & [=] & _)] | done]).
  - left. split; [by left | done].
  - destruct (existsb _ items) eqn:Hex.
    + right. split; [|done]. intros [[=]|(items' & [= <-] & Hall)].
      apply existsb_not_function in Hall. congruence.
    + left. split; [|done]. right. exists items.
      split; [done|]. by apply existsb_not_function.
Qed.

(** C8: the validator of the [mochaHooks] kind throws, with an
    "unsupported" error that names the export and the shape expected, exactly
    when the value is an array or is neither a function nor an object, and
    returns otherwise; the validator of the [mochaGlobalSetup] and
    [mochaGlobalTeardown] kinds throws such an error exactly when the value
    is neither a function nor an array all of whose elements are functions,
    and returns otherwise. *)
Theorem C8_builtin_validators (callHook : userCall → promise) (value : value) :
  let validation := Registry_validation (Registry_shipped callHook) in
  (validation "mochaHooks" value
   = Throws (UnsupportedError
       "mochaHooks must be an object or a function returning (or fulfilling with) an object")
   ↔ malformedRootHooks value)
  ∧ (validation "mochaHooks" value = Returns () ↔ ¬ malformedRootHooks value)
  ∧ (validation "mochaGlobalSetup" value
     = Throws (UnsupportedError
         "mochaGlobalSetup must be a function or an array of functions")
     ↔ ¬ functionOrFunctions value)
  ∧ (validation "mochaGlobalSetup" value = Returns () ↔ functionOrFunctions value)
  ∧ (validation "mochaGlobalTeardown" value
     = Throws (UnsupportedError
         "mochaGlobalTeardown must be a function or an array of functions")
     ↔ ¬ functionOrFunctions value)
  ∧ (validation "mochaGlobalTeardown" value = Returns ()
     ↔ functionOrFunctions value).
Proof.
  intros validation.
  assert (validation "mochaHooks" value = Registry.mochaHooks_validate value)
    as -> by reflexivity.
  assert (validation "mochaGlobalSetup" value
          = Registry.createFunctionArrayValidator "mochaGlobalSetup" value)
    as -> by reflexivity.
  assert (validation "mochaGlobalTeardown" value
          = Registry.createFunctionArrayValidator "mochaGlobalTeardown" value)
    as -> by reflexivity.
  rewrite Registry_mochaHooks_validate_spec.
  destruct (Registry_createFunctionArrayValidator_spec "mochaGlobalSetup" value)
    as [[Hs ->]|[Hs ->]];
  destruct (Registry_createFunctionArrayValidator_spec "mochaGlobalTeardown" value)
    as [[Ht ->]|[Ht ->]];
  destruct (decide (malformedRootHooks value));
  split_and!; split; (done || tauto).
Qed.

(** ** Registration *)

(** C5: registering a definition whose export name is already registered
    throws the name-conflict error and changes nothing; constructing a loader
    from definitions two of which have the same export name throws that
    error, so that no loader exists on which [load] or [finalize] could be
    called; and a successful [register] keeps every kind registered before,
    adds the new one and leaves the buckets alone. *)
Theorem C5_name_conflict :
  (∀ this plugin,
     Registry.PluginDefinition.exportName plugin ∈ Registry.exportNames this →
     Registry.register plugin this
     = (Throws (PlainError ("plugin name conflict: "
                            ++ Registry.PluginDefinition.exportName plugin)),
        this))
  ∧ (∀ (defs : list Registry.PluginDefinition.t) i j d1 d2,
       i ≠ j → defs !! i = Some d1 → defs !! j = Some d2 →
       Registry.PluginDefinition.exportName d1
       = Registry.PluginDefinition.exportName d2 →
       ∃ name,
         name ∈ Registry.PluginDefinition.exportName <$> defs
         ∧ Registry.new defs
           = Throws (PlainError ("plugin name conflict: " ++ name)))
  ∧ (∀ this plugin this',
       Registry.register plugin this = (Returns (), this') →
       (∀ name registered,
          Map_get name (Registry.registered this) = Some registered →
          Map_get name (Registry.registered this') = Some registered)
       ∧ Map_get (Registry.PluginDefinition.exportName plugin)
           (Registry.registered this') = Some plugin
       ∧ Registry.loaded this' = Registry.loaded this).
Proof.
  split_and!.
  - intros this plugin Hin. by apply Registry_register_conflict.
  - intros defs i j d1 d2 Hij H1 H2 Hname.
    apply Registry_new_conflict. rewrite NoDup_alt. intros Hnd.
    apply Hij, (Hnd i j (Registry.PluginDefinition.exportName d1)).
    + by rewrite list_lookup_fmap, H1.
    + by rewrite list_lookup_fmap, H2, Hname.
  - intros this plugin this' Hrun.
    destruct (decide (Registry.PluginDefinition.exportName plugin
                      ∈ Map_keys (Registry.registered this))) as [Hin|Hfresh].
    { by rewrite Registry_register_conflict in Hrun. }
    rewrite Registry_register_fresh in Hrun by done.
    injection Hrun as <-. simpl. unfold entry. rewrite <- Map_set_fresh by done.
    split_and!; [|apply Map_get_set_eq|done].
    intros name registered Hget. rewrite Map_get_set_ne; [done|].
    intros <-. apply Hfresh, Map_get_is_Some. by rewrite Hget.
Qed.

(** ** Failed loads *)

(** C6: when [load] throws, every bucket still starts with what it held
    before the call, so that the contributions of earlier modules are all
    there, in their order; the registry is as before. *)
Theorem C6_failed_load_keeps_earlier_contributions
    (this : Registry.PluginLoader) (m : value) (e : error)
    (name : string) (impls : list value) :
  (Registry.load m this).1 = Throws e →
  Map_get name (Registry.loaded this) = Some impls →
  Registry.registered (Registry.load m this).2 = Registry.registered this
  ∧ ∃ extra,
      Map_get name (Registry.loaded (Registry.load m this).2)
      = Some (impls ++ extra).
Proof.
  intros _ Hget. destruct (Registry_load_grows m this) as (Hreg & _ & Hgets).
  split; [done|]. by apply Hgets.
Qed.

(** ** The result of [load] *)

Lemma aborts_not_Returns {A} (o : outcome ()) (a : A) : aborts o ≠ Returns a.
Proof. by destruct o. Qed.

Lemma aborts_Throws {A} (e : error) : @aborts A (Throws e) = Throws e.
Proof. done. Qed.

Section RegistryLoadResult.
Implicit Types (this : Registry.PluginLoader) (m : value).

Lemma Registry_load_not_object m this :
  isObject m = false → Registry.load m this = (Returns false, this).
Proof. unfold isObject, Registry.load. by intros ->. Qed.

Lemma Registry_load_accepted m this :
  Registry_wf this → isObject m = true →
  Forall (accepted this m) (Registry.exportNames this) →
  ∃ loaded',
    Registry.load m this
    = (Returns (bool_decide (Exists (exports m) (Registry.exportNames this))),
       {| Registry.registered := Registry.registered this;
          Registry.loaded := loaded' |})
    ∧ ∀ name, Map_get name loaded'
              = appended m (Registry.exportNames this) (Registry.loaded this) name.
Proof.
  intros [Hnd Hkeys] Hobj Hacc. unfold isObject in Hobj.
  unfold Registry.load. rewrite Hobj. unfoldM.
  destruct (Registry_load_steps_accepted m (Registry.exportNames this) false this)
    as (loaded' & Hrun & _ & Hgets); [done|done|by rewrite Hkeys|done|].
  exists loaded'. by rewrite Hrun.
Qed.

Lemma Registry_load_rejected m this pre k post o :
  Registry_wf this → isObject m = true →
  Registry.exportNames this = pre ++ k :: post →
  Forall (accepted this m) pre →
  exports m k →
  Registry_validation this k (get m k) = o →
  o ≠ Returns () →
  ∃ loaded',
    Registry.load m this
    = (aborts o,
       {| Registry.registered := Registry.registered this;
          Registry.loaded := loaded' |})
    ∧ ∀ name, Map_get name loaded' = appended m pre (Registry.loaded this) name.
Proof.
  intros [Hnd Hkeys] Hobj Hnames Hacc Hexp Hval Hne. unfold isObject in Hobj.
  unfold Registry.load. rewrite Hobj. unfoldM. rewrite Hnames.
  destruct (Registry_load_steps_rejected m pre k post false this o)
    as (loaded' & Hrun & _ & Hgets); try done.
  - by rewrite <- Hnames.
  - by rewrite <- Hnames.
  - by rewrite Hkeys, <- Hnames.
  - by exists loaded'.
Qed.

Lemma not_accepted this m name :
  ¬ accepted this m name →
  exports m name ∧ Registry_validation this name (get m name) ≠ Returns ().
Proof.
  unfold accepted. intros Hn.
  destruct (decide (exports m name)); [|tauto].
  split; [done|]. intros ?. tauto.
Qed.
End RegistryLoadResult.

(** C4 as stated does not hold: the module [halfValidModule], that is
    [{mochaHooks: {}, mochaGlobalSetup: 42}], is a non-null object that has the
    registered export name [mochaHooks] with a truthy value that passes
    validation, yet [load] does not return true: it throws the validation
    error of [mochaGlobalSetup]. *)
Lemma C4_counterexample :
  let this := Registry_shipped sampleHooks in
  let m := halfValidModule in
  (isObject m = true
   ∧ "mochaHooks" ∈ Registry.exportNames this
   ∧ truthy (get m "mochaHooks") = true
   ∧ Registry_validation this "mochaHooks" (get m "mochaHooks") = Returns ())
  ∧ (Registry.load m this).1
    = Throws (UnsupportedError
                "mochaGlobalSetup must be a function or an array of functions")
  ∧ (Registry.load m this).1 ≠ Returns true.
Proof.
  assert ((Registry.load halfValidModule (Registry_shipped sampleHooks)).1
          = Throws (UnsupportedError
                      "mochaGlobalSetup must be a function or an array of functions"))
    as Hthrows by by vm_compute.
  cbv zeta. rewrite Hthrows. split_and!; try done; try by vm_compute.
  apply (bool_decide_unpack _). by vm_compute.
Qed.

(** C4, amended: on a loader whose registered kinds each have a bucket,
    [load(m)] returns true if and only if [m] is a non-null object that has
    at least one registered export name with a truthy value and every such
    value passes the validation of its kind; it returns false if and only if
    [m] is not a non-null object or has no registered export name with a
    truthy value, and then the loader is left as it was. *)
Theorem C4_load_result (this : Registry.PluginLoader) (m : value) :
  Registry_wf this →
  let names := Registry.exportNames this in
  ((Registry.load m this).1 = Returns true
   ↔ isObject m = true ∧ Exists (exports m) names
     ∧ Forall (accepted this m) names)
  ∧ ((Registry.load m this).1 = Returns false
     ↔ isObject m = false ∨ Forall (λ name, ¬ exports m name) names)
  ∧ ((Registry.load m this).1 = Returns false → (Registry.load m this).2 = this).
Proof.
  intros Hwf names.
  destruct (isObject m) eqn:Hobj.
  2:{ rewrite Registry_load_not_object by done. simpl.
      split_and!; [split; [done|by intros [? _]] | split; [by left|done] | done]. }
  destruct (Forall_or_first_failure (accepted this m) names)
    as [Hacc|(pre & k & post & Hnames & Hpre & Hk)].
  - destruct (Registry_load_accepted m this Hwf Hobj Hacc) as (loaded' & Hrun & _).
    fold names in Hrun.
    assert (Forall (λ name, ¬ exports m name) names ↔ ¬ Exists (exports m) names)
      as Hnone.
    { rewrite <- Forall_Exists_neg. done. }
    destruct (decide (Exists (exports m) names)) as [Hex|Hnex].
    + rewrite Hrun, bool_decide_eq_true_2 by done. simpl.
      split_and!; [split; done | split; [done|] | done].
      intros [[=]|Hall]. by apply Hnone in Hall.
    + assert (Registry.load m this = (Returns false, this)) as ->.
      { unfold Registry.load. unfold isObject in Hobj. rewrite Hobj.
        unfoldM. rewrite Registry_load_steps_absent; [done|]. by apply Hnone. }
      simpl.
      split_and!; [split; [done|by intros (_ & ? & _)] | split; [|done] | done].
      intros _. right. by apply Hnone.
  - apply not_accepted in Hk as [Hexp Hval].
    destruct (Registry_load_rejected m this pre k post _ Hwf Hobj Hnames Hpre Hexp
                eq_refl Hval) as (loaded' & Hrun & _).
    rewrite Hrun. simpl.
    assert (k ∈ names) as Hin by (rewrite Hnames, elem_of_app; right; left).
    split_and!.
    + split; [by intros ?%aborts_not_Returns|]. intros (_ & _ & Hall).
      rewrite Forall_forall in Hall. by specialize (Hall k Hin Hexp).
    + split; [by intros ?%aborts_not_Returns|]. intros [[=]|Hall].
      rewrite Forall_forall in Hall. by specialize (Hall k Hin).
    + by intros ?%aborts_not_Returns.
Qed.

(** ** [load] of the pluginMap-based loader, through the registry-based one *)

Section AsRegistry.
Implicit Types (that : PluginMap.PluginLoader) (m : value).

Lemma Map_get_fmap_pair {V} (f : string → V) (names : list string) name :
  name ∈ names → Map_get name ((λ n, (n, f n)) <$> names) = Some (f name).
Proof.
  induction names as [|n names IH]; simpl.
  - by intros ?%elem_of_nil.
  - intros Hin. destruct (decide (n = name)) as [->|Hne]; [done|].
    apply IH. by apply elem_of_cons in Hin as [->|?].
Qed.

Lemma asRegistry_exportNames that :
  Registry.exportNames (asRegistry that) = PluginMap.pluginNames that.
Proof.
  unfold Registry.exportNames, asRegistry, Map_keys. simpl.
  induction (PluginMap.pluginNames that) as [|n names IH]; simpl; [done|].
  f_equal. exact IH.
Qed.

Lemma simulates_asRegistry that : simulates (asRegistry that) that.
Proof.
  split_and!; [apply asRegistry_exportNames|done|].
  intros name impl Hin. unfold Registry_validation. simpl.
  by rewrite (Map_get_fmap_pair _ _ _ Hin).
Qed.

Lemma asRegistry_wf that : PluginMap_wf that → Registry_wf (asRegistry that).
Proof.
  intros [Hnd Hkeys]. unfold Registry_wf.
  rewrite asRegistry_exportNames. done.
Qed.

Lemma PluginMap_load_rejected m that pre k post o :
  PluginMap_wf that → isObject m = true →
  PluginMap.pluginNames that = pre ++ k :: post →
  Forall (PluginMap_accepted that m) pre →
  exports m k →
  PluginMap_validation that k (get m k) = o →
  o ≠ Returns () →
  ∃ pluginMap',
    PluginMap.load m that = (aborts o, withPluginMap that pluginMap')
    ∧ ∀ name, Map_get name pluginMap'
              = appended m pre (PluginMap.pluginMap that) name.
Proof.
  intros Hwf Hobj Hnames Hacc Hexp Hval Hne.
  pose proof (simulates_asRegistry that) as Hsim.
  destruct (Registry_load_rejected m (asRegistry that) pre k post o)
    as (loaded' & Hrun & Hgets); try done.
  - by apply asRegistry_wf.
  - by rewrite asRegistry_exportNames.
  - apply Forall_forall. intros name Hin Hname.
    destruct Hsim as (_ & _ & Hsame). rewrite Hsame.
    + rewrite Forall_forall in Hacc. by apply Hacc.
    + rewrite Hnames, elem_of_app. by left.
  - destruct Hsim as (_ & _ & Hsame). rewrite Hsame; [done|].
    rewrite Hnames, elem_of_app. right. left.
  - destruct (simulates_load m (asRegistry that) that Hsim) as [Hres Hstate].
    { destruct Hwf as [_ ->]. done. }
    rewrite Hrun in Hres, Hstate. simpl in Hres, Hstate.
    exists loaded'. split; [|done].
    destruct (PluginMap.load m that) as [r that']. simpl in *. congruence.
Qed.
End AsRegistry.

(** C9: a single [load] is not atomic.  When the validator of a kind [k]
    throws on the export of a module, and the exports the module has under
    the kinds before [k] in registration order pass validation, [load] throws
    that error and leaves a loader in which each of those earlier exports
    has been appended to the bucket of its kind, all other buckets being as
    before.  This holds of the registry-based [load] and of the
    pluginMap-based one. *)
Theorem C9_load_not_atomic :
  (∀ (this : Registry.PluginLoader) m pre k post e,
     Registry_wf this → isObject m = true →
     Registry.exportNames this = pre ++ k :: post →
     Forall (accepted this m) pre →
     exports m k →
     Registry_validation this k (get m k) = Throws e →
     ∃ loaded',
       Registry.load m this
       = (Throws e, {| Registry.registered := Registry.registered this;
                       Registry.loaded := loaded' |})
       ∧ (∀ name impls, name ∈ pre → exports m name →
            Map_get name (Registry.loaded this) = Some impls →
            Map_get name loaded' = Some (impls ++ castArray (get m name)))
       ∧ (∀ name, ¬ (name ∈ pre ∧ exports m name) →
            Map_get name loaded' = Map_get name (Registry.loaded this)))
  ∧ (∀ (that : PluginMap.PluginLoader) m pre k post e,
       PluginMap_wf that → isObject m = true →
       PluginMap.pluginNames that = pre ++ k :: post →
       Forall (PluginMap_accepted that m) pre →
       exports m k →
       PluginMap_validation that k (get m k) = Throws e →
       ∃ pluginMap',
         PluginMap.load m that = (Throws e, withPluginMap that pluginMap')
         ∧ (∀ name plugins, name ∈ pre → exports m name →
              Map_get name (PluginMap.pluginMap that) = Some plugins →
              Map_get name pluginMap' = Some (plugins ++ castArray (get m name)))
         ∧ (∀ name, ¬ (name ∈ pre ∧ exports m name) →
              Map_get name pluginMap' = Map_get name (PluginMap.pluginMap that))).
Proof.
  split.
  - intros this m pre k post e Hwf Hobj Hnames Hacc Hexp Hval.
    destruct (Registry_load_rejected m this pre k post (Throws e))
      as (loaded' & Hrun & Hgets); try done.
    exists loaded'. split_and!; [done| |].
    + intros name impls Hin Hname Hget. rewrite Hgets. unfold appended.
      rewrite decide_True by done. by rewrite Hget.
    + intros name Hn. rewrite Hgets. unfold appended. by rewrite decide_False.
  - intros that m pre k post e Hwf Hobj Hnames Hacc Hexp Hval.
    destruct (PluginMap_load_rejected m that pre k post (Throws e))
      as (pluginMap' & Hrun & Hgets); try done.
    exists pluginMap'. split_and!; [done| |].
    + intros name impls Hin Hname Hget. rewrite Hgets. unfold appended.
      rewrite decide_True by done. by rewrite Hget.
    + intros name Hn. rewrite Hgets. unfold appended. by rewrite decide_False.
Qed.

(** ** The two implementations compared *)

(** C10: with the built-in definitions, the registry-based loader and the
    pluginMap-based loader, each as created by default, answer every
    sequence of [load] calls alike (the same booleans, the same validation
    errors) and end with the same buckets; and on every non-empty list of
    contributions the [finalize] of the [mochaHooks] kind and
    [aggregateRootHooks] have the same outcome. *)
Theorem C10_implementations_agree (callHook : userCall → promise)
    (ms : list value) (hook : value) (rootHooks : list value) :
  ∃ this,
    Registry.create callHook None = Returns this
    ∧ (Registry_loadEach ms this).1
      = (PluginMap_loadEach ms (PluginMap.create None None)).1
    ∧ Registry.loaded (Registry_loadEach ms this).2
      = PluginMap.pluginMap (PluginMap_loadEach ms (PluginMap.create None None)).2
    ∧ Registry.mochaHooks_finalize callHook (hook :: rootHooks)
      = PluginMap.aggregateRootHooks callHook (Some (hook :: rootHooks)).
Proof.
  exists (Registry_shipped callHook).
  destruct (simulates_loadEach ms (Registry_shipped callHook)
              (PluginMap.create None None)) as [Hres (_ & Hloaded & _)].
  { apply simulates_shipped. }
  { by rewrite PluginMap_create_shipped. }
  split_and!; [apply Registry_create_shipped|done|done|].
  unfold Registry.mochaHooks_finalize, PluginMap.aggregateRootHooks.
  rewrite decide_True by done. reflexivity.
Qed.

(** ** [finalize] of the pluginMap-based loader *)

Section PluginMapFinalize.
Variable callHook : userCall → promise.
Implicit Types (that : PluginMap.PluginLoader).

End PluginMapFinalize.

(** ** [finalize] with user code that has effects *)








Lemma Map_get_pureLoader this name :
  Map_get name (Stateful.registered (pureLoader this))
  = pureDefinition <$> Map_get name (Registry.registered this).
Proof.
  simpl. induction (Registry.registered this) as [|[k d] reg IH]; [done|].
  simpl. destruct (decide (k = name)); [done|apply IH].
Qed.

Lemma Stateful_finalize_loop_pure this entries finalizedPlugins calls :
  Stateful.finalize_loop (Stateful.registered (pureLoader this)) entries
    finalizedPlugins calls
  = ((reduceM Registry.finalize_step entries finalizedPlugins (this, calls)).1,
     (entries,
      (reduceM Registry.finalize_step entries finalizedPlugins (this, calls)).2.2)).
Proof.
  revert finalizedPlugins calls.
  induction entries as [|[name impls] rest IH]; intros acc calls; [done|].
  cbn [reduceM Stateful.finalize_loop]. unfoldM.
  unfold Registry.finalize_step. unfoldM.
  destruct (decide (length impls ≠ 0)) as [Hne|]; [|by rewrite IH].
  rewrite Map_get_pureLoader.
  destruct (Map_get name (Registry.registered this)) as [plugin|]; [|done].
  simpl. destruct (Registry.PluginDefinition.finalize plugin) as [aggregator|];
    [|by rewrite IH].
  simpl. destruct (aggregator impls) as [v| |]; [|done..].
  by rewrite IH.
Qed.

(** With user code that has no effects, [finalize] is the [finalize] of the
    embedding above. *)
Lemma Stateful_finalize_pure this calls :
  Stateful.finalize (pureLoader this, calls)
  = ((Registry.finalize (this, calls)).1,
     (pureLoader this, (Registry.finalize (this, calls)).2.2)).
Proof.
  unfold Stateful.finalize. cbn beta iota zeta.
  rewrite Stateful_finalize_loop_pure. by destruct this.
Qed.

(** ** Calling [finalize] again *)



(** ** What [finalize] puts in its output *)

Section RegistryOutput.
Implicit Types (this : Registry.PluginLoader).



End RegistryOutput.





(** ** From the modules loaded to the root hooks *)

Section Pipeline.
Implicit Types (this : Registry.PluginLoader) (m : value).

Lemma validModule_same_registry this this' m :
  Registry.registered this' = Registry.registered this →
  validModule this m → validModule this' m.
Proof.
  unfold validModule, Registry.exportNames. intros Hreg Hvalid. rewrite Hreg.
  eapply Forall_impl; [exact Hvalid|]. intros name.
  by apply accepted_same_registry.
Qed.

Lemma contributionsOf_cons name m ms :
  contributionsOf name (m :: ms)
  = (if decide (isObject m = true ∧ exports m name)
     then castArray (get m name) else [])
    ++ contributionsOf name ms.
Proof. done. Qed.

(** Loading valid modules never throws, and appends to each bucket what
    the modules contribute to its kind. *)
Lemma Registry_loadEach_valid name ms this :
  Registry_wf this → name ∈ Registry.exportNames this →
  Forall (validModule this) ms →
  ∃ found this',
    Registry_loadEach ms this = (Returns <$> found, this')
    ∧ Registry.registered this' = Registry.registered this
    ∧ Registry_wf this'
    ∧ Map_get name (Registry.loaded this')
      = (λ impls, impls ++ contributionsOf name ms)
          <$> Map_get name (Registry.loaded this).
Proof.
  intros Hwf Hname Hvalid. revert this Hwf Hname Hvalid.
  induction ms as [|m ms IH]; intros this Hwf Hname Hvalid.
  { exists [], this. split_and!; [done..|].
    destruct (Map_get name (Registry.loaded this)); simpl; [|done].
    by rewrite app_nil_r. }
  apply Forall_cons in Hvalid as [Hm Hvalid].
  pose proof (Registry_load_wf m this Hwf) as Hwf1.
  destruct (Registry_load_grows m this) as (Hreg1 & _ & _).
  assert (∃ b, (Registry.load m this).1 = Returns b
               ∧ Map_get name (Registry.loaded (Registry.load m this).2)
                 = (λ impls, impls ++ contributionsOf name [m])
                     <$> Map_get name (Registry.loaded this))
    as (b & Hres & Hget).
  { rewrite contributionsOf_cons. change (contributionsOf name []) with (@nil value).
    rewrite app_nil_r.
    destruct (isObject m) eqn:Hobj.
    - destruct (Registry_load_accepted m this Hwf Hobj Hm) as (loaded' & Hrun & Hgets).
      rewrite Hrun. cbn [fst snd Registry.loaded]. eexists. split; [done|].
      rewrite Hgets. unfold appended.
      destruct (decide (exports m name)) as [Hexp|Hnexp].
      + by rewrite !decide_True by done.
      + rewrite !decide_False by tauto.
        destruct (Map_get name (Registry.loaded this)); simpl; [|done].
        by rewrite app_nil_r.
    - rewrite Registry_load_not_object by done. cbn [fst snd]. exists false.
      split; [done|]. rewrite decide_False by (intros [[=] _]).
      destruct (Map_get name (Registry.loaded this)); simpl; [|done].
      by rewrite app_nil_r. }
  destruct (IH (Registry.load m this).2) as (found & this' & Hrun & Hreg & Hwf' & Hget');
    [done| |..].
  { unfold Registry.exportNames in *. by rewrite Hreg1. }
  { eapply Forall_impl; [exact Hvalid|]. intros m'.
    by apply validModule_same_registry. }
  exists (b :: found), this'. simpl. rewrite Hrun, Hres. simpl.
  split_and!; [done|congruence|done|].
  rewrite Hget', Hget, !contributionsOf_cons.
  change (contributionsOf name []) with (@nil value).
  destruct (Map_get name (Registry.loaded this)); simpl; [|done].
  by rewrite app_nil_r, (assoc_L (++)).
Qed.

Lemma Registry_finalize_step_empty finalizedPlugins name s :
  Registry.finalize_step finalizedPlugins (name, []) s
  = (Returns finalizedPlugins, s).
Proof. done. Qed.

Lemma Registry_finalize_step_no_aggregator finalizedPlugins name impls this
    calls plugin :
  Map_get name (Registry.registered this) = Some plugin →
  Registry.PluginDefinition.finalize plugin = None →
  Registry.finalize_step finalizedPlugins (name, impls) (this, calls)
  = (Returns finalizedPlugins, (this, calls)).
Proof.
  intros Hreg Hfin. unfold Registry.finalize_step. unfoldM.
  destruct (decide (length impls ≠ 0)); [|done]. by rewrite Hreg, Hfin.
Qed.

Lemma Registry_finalize_step_aggregate finalizedPlugins name impls this
    calls plugin aggregator v :
  impls ≠ [] →
  Map_get name (Registry.registered this) = Some plugin →
  Registry.PluginDefinition.finalize plugin = Some aggregator →
  aggregator impls = Returns v →
  Registry.finalize_step finalizedPlugins (name, impls) (this, calls)
  = (Returns (<[Registry.outputKey plugin name := v]> finalizedPlugins),
     (this, calls ++ [name])).
Proof.
  intros Hne Hreg Hfin Hres. unfold Registry.finalize_step. unfoldM.
  rewrite decide_True by by destruct impls.
  by rewrite Hreg, Hfin, Hres.
Qed.

(** With the definitions as shipped, [finalize] aggregates a non-empty
    root-hooks bucket under [rootHooks] and adds nothing else. *)
Lemma Registry_finalize_shipped callHook this rootHooks v :
  Registry.registered this = Registry.registered (Registry_shipped callHook) →
  Registry_wf this →
  Map_get "mochaHooks" (Registry.loaded this) = Some rootHooks →
  rootHooks ≠ [] →
  Registry.mochaHooks_finalize callHook rootHooks = Returns v →
  ∀ calls,
    Registry.finalize (this, calls)
    = (Returns {[ "rootHooks" := v ]}, (this, calls ++ ["mochaHooks"])).
Proof.
  intros Hreg [_ Hkeys] Hget Hne Hres calls.
  unfold Registry.exportNames in Hkeys. rewrite Hreg in Hkeys.
  unfold Registry.finalize. unfoldM.
  destruct (Registry.loaded this) as [|[n1 b1] [|[n2 b2] [|[n3 b3] [|]]]];
    try done.
  injection Hkeys as -> -> ->. simpl in Hget. injection Hget as ->.
  cbn [reduceM]. unfoldM.
  rewrite (Registry_finalize_step_aggregate _ _ _ _ _
             {| Registry.PluginDefinition.exportName := "mochaHooks";
                Registry.PluginDefinition.optionName := Some "rootHooks";
                Registry.PluginDefinition.validate :=
                  Some Registry.mochaHooks_validate;
                Registry.PluginDefinition.finalize :=
                  Some (Registry.mochaHooks_finalize callHook) |}
             (Registry.mochaHooks_finalize callHook) v);
    [|done|by rewrite Hreg|done|done].
  rewrite (Registry_finalize_step_no_aggregator _ _ _ _ _
             {| Registry.PluginDefinition.exportName := "mochaGlobalSetup";
                Registry.PluginDefinition.optionName := Some "globalSetup";
                Registry.PluginDefinition.validate :=
                  Some (Registry.createFunctionArrayValidator "mochaGlobalSetup");
                Registry.PluginDefinition.finalize := None |});
    [|by rewrite Hreg|done].
  rewrite (Registry_finalize_step_no_aggregator _ _ _ _ _
             {| Registry.PluginDefinition.exportName := "mochaGlobalTeardown";
                Registry.PluginDefinition.optionName := Some "globalTeardown";
                Registry.PluginDefinition.validate :=
                  Some (Registry.createFunctionArrayValidator "mochaGlobalTeardown");
                Registry.PluginDefinition.finalize := None |});
    [|by rewrite Hreg|done].
  reflexivity.
Qed.
End Pipeline.

Lemma contributed_cases key obj :
  contributed key obj
  = match ownProps obj !! key with
    | None => []
    | Some (VFun f) => [VFun f]
    | Some (VArr items) => items
    | Some v => castArray v
    end.
Proof. unfold contributed. by destruct (ownProps obj !! key) as [[]|]. Qed.

Lemma RootHookSet_object_keys r :
  dom (ownProps (RootHookSet_object r))
  = ({[ "beforeAll"; "beforeEach"; "afterAll"; "afterEach" ]} : gset string)
  ∧ ownProps (RootHookSet_object r) !! "beforeAll" = Some (VArr (beforeAll r))
  ∧ ownProps (RootHookSet_object r) !! "beforeEach" = Some (VArr (beforeEach r))
  ∧ ownProps (RootHookSet_object r) !! "afterAll" = Some (VArr (afterAll r))
  ∧ ownProps (RootHookSet_object r) !! "afterEach" = Some (VArr (afterEach r)).
Proof.
  unfold RootHookSet_object, ownProps. split_and!.
  - rewrite !dom_insert_L, dom_singleton_L. set_solver.
  - by simplify_map_eq.
  - by simplify_map_eq.
  - by simplify_map_eq.
  - by simplify_map_eq.
Qed.

(** C1: load any modules whose recognised exports are valid into the
    default loader, once each and in order.  No call throws, and the
    root-hooks bucket holds the [mochaHooks] contributions in module order.
    If it is not empty and every contribution resolves to an object (a
    callback by the fulfilment of its invocation, an object with a callable
    [then] by the fulfilment of its adoption, any other contribution as it
    is), after whatever delay, then [finalize] returns an object whose only
    key is
    [rootHooks], holding an object with exactly the keys [beforeAll],
    [beforeEach], [afterAll] and [afterEach]; each of them is the
    concatenation, in contribution order, of what the resolved contributions
    hold under that key, where a missing key gives nothing, a single
    callback gives one element and a sequence gives its elements.
    [aggregateRootHooks] returns the same object, and so does the aggregator
    under any other behaviour of the user code with the same results: the
    delays play no part. *)
Theorem C1_root_hooks_in_contribution_order (callHook : userCall → promise)
    (ms objs : list value) :
  let contributions := contributionsOf "mochaHooks" ms in
  let merged := RootHookSet_object (mergedHooks objs) in
  Forall (validModule (Registry_shipped callHook)) ms →
  contributions ≠ [] →
  Forall2 (resolvesTo callHook) contributions objs →
  (∃ this0 found this,
     Registry.create callHook None = Returns this0
     ∧ Registry_loadEach ms this0 = (Returns <$> found, this)
     ∧ Map_get "mochaHooks" (Registry.loaded this) = Some contributions
     ∧ ∀ calls, Registry.finalize (this, calls)
                = (Returns {[ "rootHooks" := merged ]},
                   (this, calls ++ ["mochaHooks"])))
  ∧ PluginMap.aggregateRootHooks callHook (Some contributions) = Returns merged
  ∧ dom (ownProps merged)
    = ({[ "beforeAll"; "beforeEach"; "afterAll"; "afterEach" ]} : gset string)
  ∧ ownProps merged !! "beforeAll" = Some (VArr (objs ≫= contributed "beforeAll"))
  ∧ ownProps merged !! "beforeEach" = Some (VArr (objs ≫= contributed "beforeEach"))
  ∧ ownProps merged !! "afterAll" = Some (VArr (objs ≫= contributed "afterAll"))
  ∧ ownProps merged !! "afterEach" = Some (VArr (objs ≫= contributed "afterEach"))
  ∧ (∀ key obj,
       contributed key obj
       = match ownProps obj !! key with
         | None => []
         | Some (VFun f) => [VFun f]
         | Some (VArr items) => items
         | Some v => castArray v
         end)
  ∧ (∀ callHook',
       Forall2 (resolvesTo callHook') contributions objs →
       Registry.mochaHooks_finalize callHook' contributions = Returns merged
       ∧ PluginMap.aggregateRootHooks callHook' (Some contributions)
         = Returns merged).
Proof.
  intros contributions merged Hvalid Hne Hres.
  destruct (RootHookSet_object_keys (mergedHooks objs)) as (Hdom & H1 & H2 & H3 & H4).
  split_and!; try done.
  - destruct (Registry_loadEach_valid "mochaHooks" ms (Registry_shipped callHook))
      as (found & this & Hrun & Hreg & Hwf & Hget).
    + apply Registry_shipped_wf.
    + change ("mochaHooks"
              ∈ ["mochaHooks"; "mochaGlobalSetup"; "mochaGlobalTeardown"]).
      left.
    + done.
    + assert (Map_get "mochaHooks" (Registry.loaded this) = Some contributions)
        as Hbucket by (rewrite Hget; reflexivity).
      exists (Registry_shipped callHook), found, this.
      split_and!; [apply Registry_create_shipped|done|done|].
      apply (Registry_finalize_shipped callHook this contributions); try done.
      by apply Registry_mochaHooks_finalize_resolved.
  - by apply PluginMap_aggregateRootHooks_resolved.
  - apply contributed_cases.
  - intros callHook' Hres'. split.
    + by apply Registry_mochaHooks_finalize_resolved.
    + by apply PluginMap_aggregateRootHooks_resolved.
Qed.

(** ** The statements at sample inputs *)

Lemma C1_witness :
  ∃ this0 this,
    Registry.create sampleHooks None = Returns this0
    ∧ (Registry_loadEach (sampleModules ++ [thenableModule]) this0).2 = this
    ∧ (Registry.finalize (this, [])).1
      = Returns {[ "rootHooks" :=
                     RootHookSet_object
                       {| beforeAll := [VFun 4];
                          beforeEach := [VFun 1; VFun 7];
                          afterAll := [VFun 2; VFun 9];
                          afterEach := [VFun 6] |} ]}.
Proof.
  destruct (C1_root_hooks_in_contribution_order sampleHooks
              (sampleModules ++ [thenableModule])
              (sampleObjects ++ [thenableObject]))
    as [(this0 & found & this & Hcreate & Hrun & _ & Hfinalize) _].
  - apply (bool_decide_unpack _). vm_compute. reflexivity.
  - vm_compute. discriminate.
  - vm_compute.
    repeat (constructor; [first [reflexivity | eexists; reflexivity]|]).
    constructor.
  - exists this0, this. rewrite Hrun, Hfinalize. split_and!; [done..|].
    vm_compute. reflexivity.
Defined.



Lemma C4_witness :
  (Registry.load (VObj {[ "mochaHooks" := VObj ∅ ]})
     (Registry_shipped sampleHooks)).1 = Returns true.
Proof.
  apply (C4_load_result (Registry_shipped sampleHooks)
           (VObj {[ "mochaHooks" := VObj ∅ ]})).
  - apply (bool_decide_unpack _). vm_compute. reflexivity.
  - split_and!.
    + vm_compute. reflexivity.
    + apply (bool_decide_unpack _). vm_compute. reflexivity.
    + apply (bool_decide_unpack _). vm_compute. reflexivity.
Defined.

Lemma C5_witness :
  ∃ name,
    Registry.new (Registry.MochaPlugins sampleHooks ++ sharedOptionKinds
                  ++ Registry.MochaPlugins sampleHooks)
    = Throws (PlainError ("plugin name conflict: " ++ name)).
Proof.
  destruct C5_name_conflict as (_ & Hnew & _).
  destruct (Hnew (Registry.MochaPlugins sampleHooks ++ sharedOptionKinds
                  ++ Registry.MochaPlugins sampleHooks) 0 5
              {| Registry.PluginDefinition.exportName := "mochaHooks";
                 Registry.PluginDefinition.optionName := Some "rootHooks";
                 Registry.PluginDefinition.validate :=
                   Some Registry.mochaHooks_validate;
                 Registry.PluginDefinition.finalize :=
                   Some (Registry.mochaHooks_finalize sampleHooks) |}
              {| Registry.PluginDefinition.exportName := "mochaHooks";
                 Registry.PluginDefinition.optionName := Some "rootHooks";
                 Registry.PluginDefinition.validate :=
                   Some Registry.mochaHooks_validate;
                 Registry.PluginDefinition.finalize :=
                   Some (Registry.mochaHooks_finalize sampleHooks) |})
    as (name & _ & Hthrows).
  - lia.
  - reflexivity.
  - reflexivity.
  - reflexivity.
  - by exists name.
Defined.

Lemma C6_witness :
  let this := (Registry.load (VObj {[ "mochaHooks" := VObj ∅ ]})
                 (Registry_shipped sampleHooks)).2 in
  Registry.registered (Registry.load halfValidModule this).2
  = Registry.registered this
  ∧ ∃ extra,
      Map_get "mochaHooks" (Registry.loaded (Registry.load halfValidModule this).2)
      = Some ([VObj ∅] ++ extra).
Proof.
  intros this.
  apply (C6_failed_load_keeps_earlier_contributions this halfValidModule
           (UnsupportedError
              "mochaGlobalSetup must be a function or an array of functions")).
  - vm_compute. reflexivity.
  - vm_compute. reflexivity.
Defined.


Lemma C9_witness :
  ∃ loaded',
    Registry.load halfValidModule (Registry_shipped sampleHooks)
    = (Throws (UnsupportedError
                 "mochaGlobalSetup must be a function or an array of functions"),
       {| Registry.registered := Registry.registered (Registry_shipped sampleHooks);
          Registry.loaded := loaded' |})
    ∧ Map_get "mochaHooks" loaded' = Some [VObj ∅].
Proof.
  destruct C9_load_not_atomic as [Hregistry _].
  destruct (Hregistry (Registry_shipped sampleHooks) halfValidModule
              ["mochaHooks"] "mochaGlobalSetup" ["mochaGlobalTeardown"]
              (UnsupportedError
                 "mochaGlobalSetup must be a function or an array of functions"))
    as (loaded' & Hrun & Happended & _).
  - apply (bool_decide_unpack _). vm_compute. reflexivity.
  - vm_compute. reflexivity.
  - vm_compute. reflexivity.
  - apply (bool_decide_unpack _). vm_compute. reflexivity.
  - vm_compute. reflexivity.
  - vm_compute. reflexivity.
  - exists loaded'. split; [done|].
    apply (Happended "mochaHooks" []).
    + apply (bool_decide_unpack _). vm_compute. reflexivity.
    + vm_compute. reflexivity.
    + vm_compute. reflexivity.
Defined.

(** * Further properties *)

(** ** What [load] looks at *)

Lemma Registry_load_steps_same_exports m m' names isFound this :
  (∀ name, name ∈ names → get m name = get m' name) →
  reduceM (Registry.load_step m) names isFound this
  = reduceM (Registry.load_step m') names isFound this.
Proof.
  revert isFound this.
  induction names as [|name names IH]; intros isFound this Hsame; [done|].
  cbn [reduceM]. unfoldM.
  assert (Registry.load_step m isFound name this
          = Registry.load_step m' isFound name this) as ->.
  { unfold Registry.load_step. rewrite (Hsame name) by left. done. }
  destruct (Registry.load_step m' isFound name this) as [[b|e|] this1]; [|done..].
  apply IH. intros ??. apply Hsame. by right.
Qed.

Lemma PluginMap_load_steps_same_exports m m' names isFound that :
  (∀ name, name ∈ names → get m name = get m' name) →
  reduceM (PluginMap.load_step m) names isFound that
  = reduceM (PluginMap.load_step m') names isFound that.
Proof.
  revert isFound that.
  induction names as [|name names IH]; intros isFound that Hsame; [done|].
  cbn [reduceM]. unfoldM.
  assert (PluginMap.load_step m isFound name that
          = PluginMap.load_step m' isFound name that) as ->.
  { unfold PluginMap.load_step. rewrite (Hsame name) by left. done. }
  destruct (PluginMap.load_step m' isFound name that) as [[b|e|] that1]; [|done..].
  apply IH. intros ??. apply Hsame. by right.
Qed.

(** X1: [load] only looks at the values a module has under the registered
    names: two modules that are both non-null objects, or both not, and
    agree on every registered name get the same answer and leave the same
    loader, whatever else they export.  This holds of both loaders. *)
Theorem X1_load_ignores_other_exports :
  (∀ (this : Registry.PluginLoader) m m',
     isObject m = isObject m' →
     (∀ name, name ∈ Registry.exportNames this → get m name = get m' name) →
     Registry.load m this = Registry.load m' this)
  ∧ (∀ (that : PluginMap.PluginLoader) m m',
       isObject m = isObject m' →
       (∀ name, name ∈ PluginMap.pluginNames that → get m name = get m' name) →
       PluginMap.load m that = PluginMap.load m' that).
Proof.
  split.
  - intros this m m' Hobj Hsame. unfold Registry.load.
    unfold isObject in Hobj. rewrite Hobj.
    destruct (truthy m' && bool_decide (typeof m' = "object")); [|done].
    unfoldM. by apply Registry_load_steps_same_exports.
  - intros that m m' Hobj Hsame. unfold PluginMap.load.
    unfold isObject in Hobj. rewrite Hobj.
    destruct (truthy m' && bool_decide (typeof m' = "object")); [|done].
    unfoldM. by apply PluginMap_load_steps_same_exports.
Qed.

Lemma X1_witness :
  Registry.load (VObj {[ "mochaHooks" := VFun 5; "unrelated" := VStr "x" ]})
    (Registry_shipped sampleHooks)
  = Registry.load (VObj {[ "mochaHooks" := VFun 5 ]})
      (Registry_shipped sampleHooks).
Proof.
  destruct X1_load_ignores_other_exports as [Hregistry _].
  apply Hregistry.
  - vm_compute. reflexivity.
  - intros name Hin.
    change (name ∈ ["mochaHooks"; "mochaGlobalSetup"; "mochaGlobalTeardown"]) in Hin.
    repeat (apply elem_of_cons in Hin as [->|Hin]); [vm_compute; reflexivity..|].
    by apply elem_of_nil in Hin.
Defined.

(** ** The constructor and later registrations *)

(** X2: the constructor succeeds exactly on definitions with pairwise
    distinct export names; the loader it builds knows the names in the
    order given, maps each name to its definition and gives every name an
    empty bucket. *)
Theorem X2_constructor (defs : list Registry.PluginDefinition.t) :
  let names := Registry.PluginDefinition.exportName <$> defs in
  ((∃ this, Registry.new defs = Returns this) ↔ NoDup names)
  ∧ ∀ this, Registry.new defs = Returns this →
      Registry.exportNames this = names
      ∧ Map_keys (Registry.loaded this) = names
      ∧ (∀ name, name ∈ names → Map_get name (Registry.loaded this) = Some [])
      ∧ (∀ plugin, plugin ∈ defs →
           Map_get (Registry.PluginDefinition.exportName plugin)
             (Registry.registered this) = Some plugin).
Proof.
  intros names.
  destruct (decide (NoDup names)) as [Hnd|Hdup].
  - rewrite (Registry_new_distinct defs Hnd). fold names. split.
    + split; [done|]. intros _. by eexists.
    + intros this [= <-]. unfold Registry.exportNames. simpl.
      rewrite Map_keys_entries, Map_keys_fmap_pair. fold names.
      split_and!; [done..| |].
      * intros name Hin. by rewrite (Map_get_fmap_pair (λ _, [])).
      * intros plugin Hin. apply Map_get_NoDup.
        -- by rewrite Map_keys_entries.
        -- apply list_elem_of_fmap. by exists plugin.
  - destruct (Registry_new_conflict defs Hdup) as (name & _ & ->). split.
    + split; [by intros [? [=]] | done].
    + by intros this [=].
Qed.

Lemma Map_get_app_l {V} k (m1 m2 : list (string * V)) :
  k ∈ Map_keys m1 → Map_get k (m1 ++ m2) = Map_get k m1.
Proof.
  unfold Map_keys. induction m1 as [|[k' v'] m1 IH]; simpl.
  - by intros ?%elem_of_nil.
  - intros Hin. destruct (decide (k' = k)); [done|].
    apply IH. by apply elem_of_cons in Hin as [->|?].
Qed.

Lemma Map_get_app_r {V} k (m1 m2 : list (string * V)) :
  k ∉ Map_keys m1 → Map_get k (m1 ++ m2) = Map_get k m2.
Proof.
  unfold Map_keys. induction m1 as [|[k' v'] m1 IH]; simpl; [done|].
  intros Hnotin. apply not_elem_of_cons in Hnotin as [Hne Hnotin].
  rewrite decide_False by done. by apply IH.
Qed.

(** X3: the buckets are created by the constructor only.  A kind
    registered on a constructed loader has no bucket, and [load] of a module
    whose export under that kind passes validation (as do its exports under
    the kinds registered before) throws a [TypeError] instead of
    accumulating it. *)
Theorem X3_register_after_construction (this : Registry.PluginLoader)
    (plugin : Registry.PluginDefinition.t) (m : value) :
  let name := Registry.PluginDefinition.exportName plugin in
  let this1 := (Registry.register plugin this).2 in
  Registry_wf this →
  name ∉ Registry.exportNames this →
  isObject m = true →
  exports m name →
  runValidate (Registry.PluginDefinition.validate plugin) (get m name) = Returns () →
  Forall (accepted this m) (Registry.exportNames this) →
  (Registry.register plugin this).1 = Returns ()
  ∧ Registry.exportNames this1 = Registry.exportNames this ++ [name]
  ∧ Map_get name (Registry.loaded this1) = None
  ∧ ∃ message, (Registry.load m this1).1 = Throws (TypeError message).
Proof.
  intros name this1 [Hnd Hkeys] Hfresh Hobj Hexp Hval Hacc.
  subst this1. rewrite Registry_register_fresh by done. cbn [fst snd].
  set (this1 := {| Registry.registered := Registry.registered this ++ [entry plugin];
                   Registry.loaded := Registry.loaded this |}).
  assert (Registry.exportNames this1 = Registry.exportNames this ++ [name]) as Hnames.
  { unfold Registry.exportNames, Map_keys. simpl. by rewrite fmap_app. }
  assert (Map_get name (Registry.loaded this) = None) as Hnone.
  { apply Map_get_None. by rewrite Hkeys. }
  split_and!; [done..|].
  unfold Registry.load. unfold isObject in Hobj. rewrite Hobj. unfoldM.
  rewrite Hnames, reduceM_app.
  destruct (Registry_load_steps_accepted m (Registry.exportNames this) false this1)
    as (loaded' & Hrun & _ & Hgets).
  - done.
  - rewrite Hnames. intros n Hn. apply elem_of_app. by left.
  - simpl. by rewrite Hkeys.
  - eapply Forall_impl; [exact Hacc|]. intros n Hn Hexpn.
    unfold Registry_validation. simpl.
    destruct (decide (n ∈ Registry.exportNames this)) as [Hin|Hnin].
    + rewrite Map_get_app_l by done. by apply Hn.
    + unfold accepted, Registry_validation in Hn.
      apply Map_get_None in Hnin as Hnin'. rewrite Hnin' in Hn.
      rewrite Map_get_app_r by done. simpl.
      destruct (decide (Registry.PluginDefinition.exportName plugin = n)); [|done].
      subst n. done.
  - rewrite Hrun. cbn [reduceM]. unfoldM.
    rewrite Registry_load_step_no_bucket.
    + by eexists.
    + done.
    + unfold Registry.exportNames, Map_keys. simpl. rewrite fmap_app.
      apply elem_of_app. right. left.
    + unfold Registry_validation. simpl.
      rewrite Map_get_app_r by done. simpl. by rewrite decide_True.
    + simpl. rewrite Hgets. unfold appended.
      rewrite decide_False by (intros [? _]; done). done.
Qed.

Lemma X3_witness :
  ∃ message,
    (Registry.load (VObj {[ "first" := VFun 1 ]})
       (Registry.register
          {| Registry.PluginDefinition.exportName := "first";
             Registry.PluginDefinition.optionName := Some "shared";
             Registry.PluginDefinition.validate := None;
             Registry.PluginDefinition.finalize := None |}
          (Registry_shipped sampleHooks)).2).1
    = Throws (TypeError message).
Proof.
  apply (X3_register_after_construction (Registry_shipped sampleHooks)
           {| Registry.PluginDefinition.exportName := "first";
              Registry.PluginDefinition.optionName := Some "shared";
              Registry.PluginDefinition.validate := None;
              Registry.PluginDefinition.finalize := None |}
           (VObj {[ "first" := VFun 1 ]})).
  - apply (bool_decide_unpack _). vm_compute. reflexivity.
  - apply (bool_decide_unpack _). vm_compute. reflexivity.
  - vm_compute. reflexivity.
  - vm_compute. reflexivity.
  - vm_compute. reflexivity.
  - apply (bool_decide_unpack _). vm_compute. reflexivity.
Defined.

(** ** What [load] leaves in the buckets *)

(** X4: loading modules all of whose recognised exports are valid never
    throws, leaves the registry alone, and appends to the bucket of every
    registered kind what the modules export under it, module after module
    and, for an array export, element after element. *)
Theorem X4_buckets_accumulate_in_order (this : Registry.PluginLoader)
    (name : string) (ms : list value) :
  Registry_wf this →
  name ∈ Registry.exportNames this →
  Forall (validModule this) ms →
  (∃ found, (Registry_loadEach ms this).1 = Returns <$> found)
  ∧ Registry.registered (Registry_loadEach ms this).2 = Registry.registered this
  ∧ Map_get name (Registry.loaded (Registry_loadEach ms this).2)
    = (λ impls, impls ++ contributionsOf name ms)
        <$> Map_get name (Registry.loaded this).
Proof.
  intros Hwf Hname Hvalid.
  destruct (Registry_loadEach_valid name ms this Hwf Hname Hvalid)
    as (found & this' & Hrun & Hreg & _ & Hget).
  rewrite Hrun. cbn [fst snd]. split_and!; [by exists found|done..].
Qed.

Lemma X4_witness :
  Map_get "mochaGlobalSetup"
    (Registry.loaded
       (Registry_loadEach
          [ VObj {[ "mochaGlobalSetup" := VFun 9 ]};
            VObj {[ "mochaGlobalSetup" := VArr [VFun 10; VFun 11] ]} ]
          (Registry_shipped sampleHooks)).2)
  = Some [VFun 9; VFun 10; VFun 11].
Proof.
  destruct (X4_buckets_accumulate_in_order (Registry_shipped sampleHooks)
              "mochaGlobalSetup"
              [ VObj {[ "mochaGlobalSetup" := VFun 9 ]};
                VObj {[ "mochaGlobalSetup" := VArr [VFun 10; VFun 11] ]} ])
    as (_ & _ & Hget).
  - apply (bool_decide_unpack _). vm_compute. reflexivity.
  - apply (bool_decide_unpack _). vm_compute. reflexivity.
  - apply (bool_decide_unpack _). vm_compute. reflexivity.
  - rewrite Hget. vm_compute. reflexivity.
Defined.

(** ** The errors of [load] *)

Lemma Registry_shipped_validation callHook name value :
  name ∈ Registry.exportNames (Registry_shipped callHook) →
  (name = "mochaHooks"
   ∧ Registry_validation (Registry_shipped callHook) name value
     = Registry.mochaHooks_validate value)
  ∨ (name ≠ "mochaHooks"
     ∧ Registry_validation (Registry_shipped callHook) name value
       = Registry.createFunctionArrayValidator name value).
Proof.
  intros Hin.
  change (name ∈ ["mochaHooks"; "mochaGlobalSetup"; "mochaGlobalTeardown"]) in Hin.
  repeat (apply elem_of_cons in Hin as [->|Hin]).
  - left. by split.
  - right. by split.
  - right. by split.
  - by apply elem_of_nil in Hin.
Qed.

Lemma Registry_validation_same_registry this this' name value :
  Registry.registered this' = Registry.registered this →
  Registry_validation this' name value = Registry_validation this name value.
Proof. unfold Registry_validation. by intros ->. Qed.

(** X5: on a constructed loader, [load] throws only what the validator of
    a registered kind throws on the export the module has under that kind;
    with the definitions as shipped that is always an "unsupported" error,
    and [load] always completes. *)
Theorem X5_load_throws_validation_errors_only (this : Registry.PluginLoader)
    (m : value) :
  Registry_wf this →
  (∀ e, (Registry.load m this).1 = Throws e →
     ∃ name, name ∈ Registry.exportNames this ∧ exports m name
             ∧ Registry_validation this name (get m name) = Throws e)
  ∧ ∀ callHook,
      Registry.registered this = Registry.registered (Registry_shipped callHook) →
      (Registry.load m this).1 ≠ Pending
      ∧ ∀ e, (Registry.load m this).1 = Throws e →
          ∃ message, e = UnsupportedError message.
Proof.
  intros Hwf.
  assert (∀ o, (Registry.load m this).1 = o → (∀ b, o ≠ Returns b) →
            ∃ name, name ∈ Registry.exportNames this ∧ exports m name
                    ∧ aborts (Registry_validation this name (get m name)) = o
                    ∧ Registry_validation this name (get m name) ≠ Returns ())
    as Hfail.
  { intros o Ho Hnot.
    destruct (isObject m) eqn:Hobj.
    2:{ rewrite Registry_load_not_object in Ho by done. by destruct (Hnot false). }
    destruct (Forall_or_first_failure (accepted this m) (Registry.exportNames this))
      as [Hacc|(pre & k & post & Hnames & Hpre & Hk)].
    - destruct (Registry_load_accepted m this Hwf Hobj Hacc) as (loaded' & Hrun & _).
      rewrite Hrun in Ho. simpl in Ho. by destruct (Hnot _ (eq_sym Ho)).
    - apply not_accepted in Hk as [Hexp Hval].
      destruct (Registry_load_rejected m this pre k post _ Hwf Hobj Hnames Hpre Hexp
                  eq_refl Hval) as (loaded' & Hrun & _).
      rewrite Hrun in Ho. simpl in Ho. exists k. split_and!; try done.
      rewrite Hnames, elem_of_app. right. left. }
  split.
  - intros e He. destruct (Hfail _ He) as (name & Hin & Hexp & Hab & _); [done|].
    exists name. split_and!; [done..|].
    destruct (Registry_validation this name (get m name)) as [[]|e'|];
      simpl in Hab; congruence.
  - intros callHook Hreg.
    assert (∀ name value, name ∈ Registry.exportNames this →
              Registry_validation this name value = Returns ()
              ∨ ∃ message, Registry_validation this name value
                           = Throws (UnsupportedError message)) as Hshipped.
    { intros name value Hin.
      rewrite (Registry_validation_same_registry (Registry_shipped callHook)) by done.
      unfold Registry.exportNames in Hin. rewrite Hreg in Hin.
      destruct (Registry_shipped_validation callHook name value Hin)
        as [[_ ->]|[_ ->]].
      - rewrite Registry_mochaHooks_validate_spec.
        destruct (decide _); [right; by eexists | by left].
      - destruct (Registry_createFunctionArrayValidator_spec name value)
          as [[_ ->]|[_ ->]]; [by left | right; by eexists]. }
    split.
    + intros Hpending.
      destruct (Hfail _ Hpending) as (name & Hin & _ & Hab & Hne); [done|].
      destruct (Hshipped name (get m name) Hin) as [Hok|[message Hthrow]]; [done|].
      by rewrite Hthrow in Hab.
    + intros e He.
      destruct (Hfail _ He) as (name & Hin & _ & Hab & Hne); [done|].
      destruct (Hshipped name (get m name) Hin) as [Hok|[message Hthrow]]; [done|].
      rewrite Hthrow in Hab. injection Hab as <-. by exists message.
Qed.

Lemma X5_witness :
  ∃ message,
    (Registry.load halfValidModule (Registry_shipped sampleHooks)).1
    = Throws (UnsupportedError message).
Proof.
  destruct (X5_load_throws_validation_errors_only (Registry_shipped sampleHooks)
              halfValidModule) as [_ Hshipped].
  - apply (bool_decide_unpack _). vm_compute. reflexivity.
  - destruct (Hshipped sampleHooks eq_refl) as [_ Hunsupported].
    destruct (Hunsupported
                (UnsupportedError
                   "mochaGlobalSetup must be a function or an array of functions"))
      as [message Hmessage].
    + vm_compute. reflexivity.
    + exists message. rewrite <- Hmessage. vm_compute. reflexivity.
Defined.

(** ** [Promise.all] on inputs that are not all fulfilled *)

Lemma fold_onSettle_settled evs r :
  fold_left onSettle evs (Settled r) = Settled r.
Proof. induction evs as [|ev evs IH]; simpl; [done | exact IH]. Qed.

(** As long as fewer fulfilments arrive than promises are awaited, the
    combined promise is rejected by the first rejection, if any, and stays
    unsettled otherwise. *)
Lemma fold_onSettle_short evs values remaining :
  fulfilments evs < remaining →
  fold_left onSettle evs (Waiting values remaining)
  = match firstReject evs with
    | Some (_, _, e) => Settled (Throws e)
    | None => Waiting (fold_left store evs values) (remaining - fulfilments evs)
    end.
Proof.
  revert values remaining.
  induction evs as [|ev evs IH]; intros values remaining Hlt.
  - simpl. f_equal. lia.
  - cbn [fold_left firstReject fulfilments onSettle] in *.
    unfold store at 2.
    destruct (ev_settlement ev) as [v|e].
    + rewrite decide_False by lia. rewrite IH by lia.
      destruct (firstReject evs) as [[[? ?] ?]|]; [done|]. f_equal. lia.
    + apply fold_onSettle_settled.
Qed.

Lemma fulfilments_Permutation evs evs' :
  evs ≡ₚ evs' → fulfilments evs = fulfilments evs'.
Proof.
  induction 1 as [|x l l' _ IH|x y l|l l' l'' _ IH1 _ IH2]; simpl.
  - done.
  - destruct (ev_settlement x); lia.
  - destruct (ev_settlement x), (ev_settlement y); lia.
  - lia.
Qed.

Lemma fulfilments_eventsFrom i promises :
  fulfilments (eventsFrom i promises) ≤ length promises
  ∧ (Exists notFulfilled promises →
     fulfilments (eventsFrom i promises) < length promises).
Proof.
  revert i. induction promises as [|p promises IH]; intros i; simpl.
  - split; [lia|]. by intros ?%Exists_nil.
  - destruct (IH (S i)) as [IH1 IH2].
    destruct p as [t [v|e]|]; simpl; rewrite Exists_cons; split; try lia.
    intros [[]|Hex]. apply IH2 in Hex. lia.
Qed.

Lemma all_fulfilled_or_not promises :
  (∃ vs, Forall2 fulfilsWith promises vs) ∨ Exists notFulfilled promises.
Proof.
  induction promises as [|p promises IH].
  - left. by exists [].
  - destruct (decide (notFulfilled p)) as [Hn|Hf]; [right; by left|].
    destruct IH as [[vs Hvs]|Hex]; [|right; by right].
    destruct p as [t [v|e]|]; simpl in Hf; try tauto.
    left. exists (v :: vs). constructor; [by exists t | done].
Qed.

Lemma Forall2_fulfilsWith_not promises vs :
  Forall2 fulfilsWith promises vs → ¬ Exists notFulfilled promises.
Proof.
  induction 1 as [|p v promises vs [t ->] _ IH]; rewrite ?Exists_nil, ?Exists_cons;
    simpl; tauto.
Qed.

(** When not every input promise is fulfilled, [Promise.all] is rejected by
    the first rejection in settlement order, and never settles without
    one. *)
Lemma Promise_all_not_fulfilled promises :
  Exists notFulfilled promises →
  Promise_all promises
  = match firstReject (merge_sort before (eventsFrom 0 promises)) with
    | Some (_, _, e) => Throws e
    | None => Pending
    end.
Proof.
  intros Hex. unfold Promise_all.
  rewrite decide_False.
  2:{ intros Hz. apply length_zero_iff_nil in Hz as ->. by apply Exists_nil in Hex. }
  rewrite fold_onSettle_short.
  - by destruct (firstReject _) as [[[? ?] ?]|].
  - rewrite (fulfilments_Permutation _ _ (merge_sort_Permutation before _)).
    by apply fulfilments_eventsFrom.
Qed.

Lemma firstReject_split evs t i e :
  firstReject evs = Some (t, i, e) →
  ∃ l1 l2, evs = l1 ++ Event t i (Reject e) :: l2
           ∧ Forall (λ ev, ∃ v, ev_settlement ev = Fulfil v) l1.
Proof.
  induction evs as [|[t' i' s'] evs IH]; simpl; [done|].
  destruct s' as [v|e'].
  - intros (l1 & l2 & -> & ?)%IH. exists (Event t' i' (Fulfil v) :: l1), l2.
    split; [done|]. constructor; [by exists v | done].
  - intros [= -> -> ->]. exists [], evs. by split.
Qed.

Lemma firstReject_None evs :
  firstReject evs = None → Forall (λ ev, ∃ v, ev_settlement ev = Fulfil v) evs.
Proof.
  induction evs as [|ev evs IH]; simpl; [constructor|].
  destruct (ev_settlement ev) as [v|e] eqn:Hs; [|done].
  intros ?. constructor; [by exists v | auto].
Qed.

Lemma eventsFrom_elem_of i promises t k s :
  Event t k s ∈ eventsFrom i promises
  ↔ i ≤ k ∧ promises !! (k - i) = Some (SettlesAt t s).
Proof.
  revert i. induction promises as [|p promises IH]; intros i; simpl.
  - rewrite elem_of_nil. split; [done | by intros [_ ?]].
  - assert (Event t k s ∈ eventsFrom (S i) promises
            ↔ i < k ∧ (p :: promises) !! (k - i) = Some (SettlesAt t s)) as Hrest.
    { rewrite IH. split.
      - intros [Hle Hlook]. split; [lia|].
        replace (k - i) with (S (k - S i)) by lia. done.
      - intros [Hlt Hlook]. split; [lia|].
        replace (k - i) with (S (k - S i)) in Hlook by lia. done. }
    destruct p as [t' s'|].
    + rewrite elem_of_cons, Hrest. split.
      * intros [Heq|[? ?]]; [|split; [lia|done]].
        injection Heq as ? ? ?. subst. split; [lia|]. by rewrite Nat.sub_diag.
      * intros [Hle Hlook]. destruct (decide (k = i)) as [->|Hne].
        -- left. replace (i - i) with 0 in Hlook by lia. simpl in Hlook.
           by injection Hlook as -> ->.
        -- right. split; [lia|done].
    + rewrite Hrest. split.
      * intros [? ?]. split; [lia|done].
      * intros [Hle Hlook]. destruct (decide (k = i)) as [->|Hne].
        -- replace (i - i) with 0 in Hlook by lia. done.
        -- split; [lia|done].
Qed.

Lemma firstReject_sorted promises t i e :
  firstReject (merge_sort before (eventsFrom 0 promises)) = Some (t, i, e) →
  firstRejection promises i t e.
Proof.
  intros Hfirst.
  pose proof (merge_sort_Permutation before (eventsFrom 0 promises)) as Hperm.
  pose proof (StronglySorted_merge_sort before (eventsFrom 0 promises)) as Hsorted.
  destruct (firstReject_split _ _ _ _ Hfirst) as (l1 & l2 & Hsplit & Hl1).
  rewrite Hsplit in Hperm, Hsorted.
  split.
  - assert (Event t i (Reject e) ∈ eventsFrom 0 promises) as Hin.
    { rewrite <- Hperm. apply elem_of_app. right. left. }
    apply eventsFrom_elem_of in Hin as [_ Hlook].
    by rewrite Nat.sub_0_r in Hlook.
  - intros j t' e' Hlook.
    assert (Event t' j (Reject e') ∈ l1 ++ Event t i (Reject e) :: l2) as Hin.
    { rewrite Hperm. apply eventsFrom_elem_of. split; [lia|].
      by rewrite Nat.sub_0_r. }
    apply elem_of_app in Hin as [Hin|Hin].
    { rewrite Forall_forall in Hl1. by destruct (Hl1 _ Hin) as [v ?]. }
    apply elem_of_cons in Hin as [[= -> -> ->]|Hin]; [right; lia|].
    apply StronglySorted_app_1_r in Hsorted.
    apply StronglySorted_inv in Hsorted as [_ Hall].
    rewrite Forall_forall in Hall. apply (Hall _ Hin).
Qed.

Lemma firstReject_sorted_None promises :
  firstReject (merge_sort before (eventsFrom 0 promises)) = None →
  Forall (λ p, ∀ e, ¬ rejectsWith p e) promises.
Proof.
  intros Hnone%firstReject_None. apply Forall_forall.
  intros p Hin e [t ->].
  apply list_elem_of_lookup in Hin as [i Hlook].
  assert (Event t i (Reject e) ∈ merge_sort before (eventsFrom 0 promises)) as Hev.
  { rewrite merge_sort_Permutation. apply eventsFrom_elem_of. split; [lia|].
    by rewrite Nat.sub_0_r. }
  rewrite Forall_forall in Hnone. by destruct (Hnone _ Hev) as [v ?].
Qed.

(** The outcome of [Promise.all] in full: fulfilled exactly when every
    input is, with the values in input order; rejected exactly by the first
    rejection; unsettled exactly when some input never settles and none is
    rejected. *)
Lemma Promise_all_outcome promises :
  (∀ vs, Promise_all promises = Returns vs ↔ Forall2 fulfilsWith promises vs)
  ∧ (∀ e, Promise_all promises = Throws e
          ↔ ∃ i t, firstRejection promises i t e)
  ∧ (Promise_all promises = Pending
     ↔ Exists (λ p, p = NeverSettles) promises
       ∧ Forall (λ p, ∀ e, ¬ rejectsWith p e) promises).
Proof.
  destruct (all_fulfilled_or_not promises) as [[vs' Hvs']|Hex].
  - pose proof (Promise_all_fulfilled _ _ Hvs') as Hall.
    pose proof (Forall2_fulfilsWith_not _ _ Hvs') as Hnot.
    rewrite Hall. split_and!.
    + intros vs. split; [by intros [= <-]|].
      intros Hvs. f_equal. clear Hall Hnot. revert vs Hvs.
      induction Hvs' as [|p v ps vs' [t ->] _ IH]; intros vs Hvs.
      * by apply Forall2_nil_inv_l in Hvs as ->.
      * apply Forall2_cons_inv_l in Hvs as (v' & vs'' & [t' [= _ ->]] & Hrest & ->).
        f_equal. by apply IH.
    + intros e. split; [done|]. intros (i & t & Hlook & _).
      exfalso. apply Hnot. apply Exists_exists.
      exists (SettlesAt t (Reject e)).
      split; [by eapply list_elem_of_lookup_2|done].
    + split; [done|]. intros [Hnever _]. exfalso. apply Hnot.
      eapply Exists_impl; [exact Hnever|]. by intros p ->.
  - rewrite (Promise_all_not_fulfilled _ Hex).
    destruct (firstReject _) as [[[t i] e]|] eqn:Hfirst.
    + apply firstReject_sorted in Hfirst as Hearliest. split_and!.
      * intros vs. split; [done|]. intros Hvs.
        by apply Forall2_fulfilsWith_not in Hvs.
      * intros e'. split.
        -- intros [= <-]. by exists i, t.
        -- intros (i' & t' & Hlook' & Hfirst').
           destruct Hearliest as [Hlook Hearliest].
           destruct (Hearliest _ _ _ Hlook'), (Hfirst' _ _ _ Hlook); try lia.
           assert (i = i') as -> by lia. congruence.
      * split; [done|]. intros [_ Hnone]. exfalso.
        destruct Hearliest as [Hlook _].
        rewrite Forall_forall in Hnone.
        eapply (Hnone _ (list_elem_of_lookup_2 _ _ _ Hlook)). by exists t.
    + apply firstReject_sorted_None in Hfirst as Hnone. split_and!.
      * intros vs. split; [done|]. intros Hvs.
        by apply Forall2_fulfilsWith_not in Hvs.
      * intros e. split; [done|]. intros (i & t & Hlook & _). exfalso.
        rewrite Forall_forall in Hnone.
        eapply (Hnone _ (list_elem_of_lookup_2 _ _ _ Hlook)). by exists t.
      * split; [|done]. intros _. split; [|done].
        rewrite Forall_forall in Hnone.
        apply Exists_exists in Hex as (p & Hin & Hp). apply Exists_exists.
        exists p. split; [done|]. destruct p as [t [v|e]|]; [done| |done].
        exfalso. apply (Hnone _ Hin e). by exists t.
Qed.

(** ** The outcome of the aggregation *)

Lemma PluginMap_aggregateRootHooks_outcome callHook cs :
  PluginMap.aggregateRootHooks callHook (Some cs)
  = match Promise_all (PluginMap.resolveHook callHook <$> cs) with
    | Returns objs => Returns (RootHookSet_object (mergedHooks objs))
    | Throws e => Throws e
    | Pending => Pending
    end.
Proof.
  unfold PluginMap.aggregateRootHooks. simpl.
  destruct (Promise_all _); [|done..]. by rewrite PluginMap_fold_mergeHook.
Qed.

Lemma PluginMap_aggregateRootHooks_returns callHook cs v :
  PluginMap.aggregateRootHooks callHook (Some cs) = Returns v
  ↔ ∃ objs, Forall2 (resolvesTo callHook) cs objs
            ∧ v = RootHookSet_object (mergedHooks objs).
Proof.
  rewrite PluginMap_aggregateRootHooks_outcome.
  destruct (Promise_all_outcome (PluginMap.resolveHook callHook <$> cs))
    as (Hreturns & _). split.
  - destruct (Promise_all _) as [objs| |] eqn:Hall; [|done..].
    intros [= <-]. exists objs. split; [|done].
    apply PluginMap_resolveHook_fulfils. by apply Hreturns.
  - intros (objs & Hres & ->).
    apply PluginMap_resolveHook_fulfils, Hreturns in Hres. by rewrite Hres.
Qed.

(** X7: [aggregateRootHooks] is all or nothing.  It is fulfilled exactly
    when every contribution resolves (a callback by the fulfilment of its
    invocation, an object with a callable [then] by the fulfilment of its
    adoption, anything else as it is), and then with the merge of the
    resolved objects in contribution order; it is rejected exactly with the
    reason of the first contribution to be rejected, whatever the others
    resolved to; and it stays unsettled exactly when some call into user
    code never settles and none is rejected. *)
Theorem X7_aggregation_all_or_nothing (callHook : userCall → promise)
    (cs : list value) :
  let promises := PluginMap.resolveHook callHook <$> cs in
  let result := PluginMap.aggregateRootHooks callHook (Some cs) in
  (∀ v, result = Returns v
        ↔ ∃ objs, Forall2 (resolvesTo callHook) cs objs
                  ∧ v = RootHookSet_object (mergedHooks objs))
  ∧ (∀ e, result = Throws e ↔ ∃ i t, firstRejection promises i t e)
  ∧ (result = Pending
     ↔ Exists (λ p, p = NeverSettles) promises
       ∧ Forall (λ p, ∀ e, ¬ rejectsWith p e) promises).
Proof.
  intros promises result.
  destruct (Promise_all_outcome promises) as (_ & Hthrows & Hpending).
  split_and!.
  - intros v. apply PluginMap_aggregateRootHooks_returns.
  - intros e. rewrite <- Hthrows. subst result promises.
    rewrite PluginMap_aggregateRootHooks_outcome.
    destruct (Promise_all _); split; congruence.
  - rewrite <- Hpending. subst result promises.
    rewrite PluginMap_aggregateRootHooks_outcome.
    destruct (Promise_all _); split; congruence.
Qed.




(** ** The settings of the pluginMap-based [finalize] *)

Ltac PluginMap_finalize_cases callHook that :=
  unfold PluginMap.finalize, PluginMap.lengthOf; unfoldM;
  cbn beta iota zeta;
  destruct (Map_get PluginMap.PLUGIN_ROOT_HOOKS (PluginMap.pluginMap that))
    as [[|hook hooks]|];
  [ | destruct (PluginMap.aggregateRootHooks callHook (Some (hook :: hooks)))
        as [rootHooks|e|] eqn:Hagg | ];
  (destruct (Map_get PluginMap.PLUGIN_GLOBAL_SETUP (PluginMap.pluginMap that))
     as [[|setup setups]|]);
  (destruct (Map_get PluginMap.PLUGIN_GLOBAL_TEARDOWN (PluginMap.pluginMap that))
     as [[|teardown teardowns]|]);
  simpl.

Lemma PluginMap_finalize_returns (callHook : userCall → promise)
    (that : PluginMap.PluginLoader) (calls : list string) :
  (∃ out, (PluginMap.finalize callHook (that, calls)).1 = Returns out)
  ↔ ∃ hooks setups teardowns,
      Map_get PluginMap.PLUGIN_ROOT_HOOKS (PluginMap.pluginMap that) = Some hooks
      ∧ Map_get PluginMap.PLUGIN_GLOBAL_SETUP (PluginMap.pluginMap that)
        = Some setups
      ∧ Map_get PluginMap.PLUGIN_GLOBAL_TEARDOWN (PluginMap.pluginMap that)
        = Some teardowns
      ∧ (hooks = []
         ∨ ∃ rootHooks,
             PluginMap.aggregateRootHooks callHook (Some hooks)
             = Returns rootHooks).
Proof.
  PluginMap_finalize_cases callHook that.
  all: split;
    [ intros [out Ho]; try discriminate Ho
    | intros (? & ? & ? & Hb1 & Hb2 & Hb3 & Hor); try discriminate Hb1;
      try discriminate Hb2; try discriminate Hb3 ].
  all: try (eexists _, _, _; split_and!; [reflexivity..|];
            first [by left | right; by eexists]).
  all: try (eexists; reflexivity).
  all: injection Hb1 as <-; destruct Hor as [?|[? ?]]; congruence.
Qed.

Lemma PluginMap_finalize_output (callHook : userCall → promise)
    (that : PluginMap.PluginLoader) (calls : list string) out :
  (PluginMap.finalize callHook (that, calls)).1 = Returns out →
  ∃ hooks setups teardowns,
    Map_get PluginMap.PLUGIN_ROOT_HOOKS (PluginMap.pluginMap that) = Some hooks
    ∧ Map_get PluginMap.PLUGIN_GLOBAL_SETUP (PluginMap.pluginMap that)
      = Some setups
    ∧ Map_get PluginMap.PLUGIN_GLOBAL_TEARDOWN (PluginMap.pluginMap that)
      = Some teardowns
    ∧ dom out ⊆ ({[ "rootHooks"; "globalSetup"; "globalTeardown" ]}
                 : gset string)
    ∧ (if decide (hooks = []) then out !! "rootHooks" = None
       else ∃ rootHooks,
              PluginMap.aggregateRootHooks callHook (Some hooks)
              = Returns rootHooks
              ∧ out !! "rootHooks" = Some rootHooks)
    ∧ out !! "globalSetup"
      = (if decide (setups = []) then None else Some (VArr setups))
    ∧ out !! "globalTeardown"
      = (if decide (teardowns = []) then None else Some (VArr teardowns)).
Proof.
  PluginMap_finalize_cases callHook that.
  all: intros Ho; try discriminate Ho; injection Ho as <-.
  all: eexists _, _, _; split_and!; [reflexivity..| | | |].
  all: try (rewrite ?dom_insert_L, dom_empty_L; intros key;
                 rewrite ?elem_of_union, ?elem_of_singleton, ?elem_of_empty;
                 tauto).
  all: rewrite ?decide_True by done; rewrite ?decide_False by done.
  all: try (eexists; split; [eassumption|]).
  all: by simplify_map_eq.
Qed.

(** X9: the settings object of the pluginMap-based [finalize].  The call
    returns an object exactly when the loader has a bucket for each of the
    three built-in kinds and the root hooks, if any, aggregate; the object
    then has no key other than [rootHooks], [globalSetup] and
    [globalTeardown], each present exactly when its bucket is not empty:
    [rootHooks] with the aggregated hooks, the other two with the bucket as
    it is. *)
Theorem X9_pluginMap_finalize_output (callHook : userCall → promise)
    (that : PluginMap.PluginLoader) (calls : list string) :
  let result := (PluginMap.finalize callHook (that, calls)).1 in
  let bucket name := Map_get name (PluginMap.pluginMap that) in
  ((∃ out, result = Returns out)
   ↔ ∃ hooks setups teardowns,
       bucket PluginMap.PLUGIN_ROOT_HOOKS = Some hooks
       ∧ bucket PluginMap.PLUGIN_GLOBAL_SETUP = Some setups
       ∧ bucket PluginMap.PLUGIN_GLOBAL_TEARDOWN = Some teardowns
       ∧ (hooks = []
          ∨ ∃ rootHooks,
              PluginMap.aggregateRootHooks callHook (Some hooks)
              = Returns rootHooks))
  ∧ ∀ out, result = Returns out →
      ∃ hooks setups teardowns,
        bucket PluginMap.PLUGIN_ROOT_HOOKS = Some hooks
        ∧ bucket PluginMap.PLUGIN_GLOBAL_SETUP = Some setups
        ∧ bucket PluginMap.PLUGIN_GLOBAL_TEARDOWN = Some teardowns
        ∧ dom out ⊆ ({[ "rootHooks"; "globalSetup"; "globalTeardown" ]}
                     : gset string)
        ∧ (if decide (hooks = []) then out !! "rootHooks" = None
           else ∃ rootHooks,
                  PluginMap.aggregateRootHooks callHook (Some hooks)
                  = Returns rootHooks
                  ∧ out !! "rootHooks" = Some rootHooks)
        ∧ out !! "globalSetup"
          = (if decide (setups = []) then None else Some (VArr setups))
        ∧ out !! "globalTeardown"
          = (if decide (teardowns = []) then None else Some (VArr teardowns)).
Proof.
  cbv zeta. split.
  - apply PluginMap_finalize_returns.
  - intros out. apply PluginMap_finalize_output.
Qed.

(** ** Buckets of the pluginMap-based loader *)

Lemma Map_keys_set_elem_of {V} k k' (v : V) m :
  k ∈ Map_keys (Map_set k' v m) ↔ k = k' ∨ k ∈ Map_keys m.
Proof.
  unfold Map_keys. induction m as [|[k0 v0] m IH]; simpl.
  - rewrite elem_of_cons, !elem_of_nil. tauto.
  - destruct (decide (k0 = k')) as [->|Hne]; simpl.
    + rewrite !elem_of_cons. tauto.
    + rewrite !elem_of_cons, IH. tauto.
Qed.

Lemma Map_keys_new_elem_of {V} k (entries : list (string * V)) :
  k ∈ Map_keys (Map_new entries) ↔ k ∈ entries.*1.
Proof.
  unfold Map_new.
  cut (∀ m, k ∈ Map_keys (fold_left (λ m kv, Map_set kv.1 kv.2 m) entries m)
            ↔ k ∈ Map_keys m ∨ k ∈ entries.*1).
  { intros Hcut. rewrite Hcut. unfold Map_keys. simpl.
    rewrite elem_of_nil. tauto. }
  induction entries as [|[k' v'] entries IH]; intros m; simpl.
  - rewrite elem_of_nil. tauto.
  - rewrite IH, Map_keys_set_elem_of, elem_of_cons. tauto.
Qed.

Lemma PluginMap_new_keys names validators name :
  name ∈ Map_keys (PluginMap.pluginMap (PluginMap.new names validators))
  ↔ name ∈ PluginMap.pluginNames (PluginMap.new names validators).
Proof.
  unfold PluginMap.new. simpl. rewrite Map_keys_new_elem_of.
  pose proof (Map_keys_fmap_pair (default PluginMap.PLUGIN_NAMES names)
                ([] : list value)) as Hkeys.
  unfold Map_keys in Hkeys. by rewrite Hkeys.
Qed.

Lemma PluginMap_load_keys m that :
  PluginMap.pluginNames that ⊆ Map_keys (PluginMap.pluginMap that) →
  PluginMap.pluginNames (PluginMap.load m that).2 = PluginMap.pluginNames that
  ∧ Map_keys (PluginMap.pluginMap (PluginMap.load m that).2)
    = Map_keys (PluginMap.pluginMap that).
Proof.
  intros Hkeys.
  destruct (simulates_load m (asRegistry that) that (simulates_asRegistry that)
              Hkeys) as [_ ->].
  destruct (Registry_load_grows m (asRegistry that)) as (_ & Hk & _).
  by split.
Qed.

Lemma PluginMap_loadEach_keys ms that :
  PluginMap.pluginNames that ⊆ Map_keys (PluginMap.pluginMap that) →
  PluginMap.pluginNames (PluginMap_loadEach ms that).2
  = PluginMap.pluginNames that
  ∧ Map_keys (PluginMap.pluginMap (PluginMap_loadEach ms that).2)
    = Map_keys (PluginMap.pluginMap that).
Proof.
  revert that. induction ms as [|m ms IH]; intros that Hkeys; simpl; [done|].
  destruct (PluginMap_load_keys m that Hkeys) as [Hn Hk].
  destruct (IH (PluginMap.load m that).2) as [Hn' Hk'].
  { by rewrite Hn, Hk. }
  split; congruence.
Qed.

(** X10: a pluginMap-based loader created without one of the three
    built-in names never produces settings: whatever is loaded, [finalize]
    does not return an object, and it fails with a [TypeError] when the
    missing name is [mochaHooks]. *)
Theorem X10_finalize_needs_builtin_names (callHook : userCall → promise)
    (names : list string)
    (validators : option (gmap string (value → outcome ())))
    (ms : list value) (calls : list string) (name : string) :
  name ∈ PluginMap.PLUGIN_NAMES → name ∉ names →
  let that :=
    (PluginMap_loadEach ms (PluginMap.create (Some names) validators)).2 in
  (∀ out, (PluginMap.finalize callHook (that, calls)).1 ≠ Returns out)
  ∧ (name = PluginMap.PLUGIN_ROOT_HOOKS →
     ∃ message,
       (PluginMap.finalize callHook (that, calls)).1 = Throws (TypeError message)).
Proof.
  intros Hbuiltin Hmissing that.
  assert (Map_get name (PluginMap.pluginMap that) = None) as Hnone.
  { apply Map_get_None. subst that. unfold PluginMap.create.
    destruct (PluginMap_loadEach_keys ms
                (PluginMap.new (Some names) validators)) as [_ ->].
    - intros n. by rewrite PluginMap_new_keys.
    - by rewrite PluginMap_new_keys. }
  split.
  - intros out Hout.
    destruct (proj1 (PluginMap_finalize_returns callHook that calls))
      as (hooks & setups & teardowns & H1 & H2 & H3 & _); [by exists out|].
    repeat (apply elem_of_cons in Hbuiltin as [->|Hbuiltin]); [congruence..|].
    by apply elem_of_nil in Hbuiltin.
  - intros ->. unfold PluginMap.finalize, PluginMap.lengthOf. unfoldM.
    cbn beta iota zeta. rewrite Hnone. by eexists.
Qed.

Lemma X10_witness :
  "mochaGlobalSetup" ∈ PluginMap.PLUGIN_NAMES
  ∧ ("mochaGlobalSetup" ∉ ["mochaHooks"])
  ∧ ∀ out,
      (PluginMap.finalize sampleHooks
         ((PluginMap_loadEach sampleModules
             (PluginMap.create (Some ["mochaHooks"]) None)).2, [])).1
      ≠ Returns out.
Proof.
  assert ("mochaGlobalSetup" ∈ PluginMap.PLUGIN_NAMES) as Hbuiltin
    by (right; left).
  assert ("mochaGlobalSetup" ∉ ["mochaHooks"]) as Hmissing
    by (apply (bool_decide_unpack _); by vm_compute).
  split_and!; [done..|].
  apply (X10_finalize_needs_builtin_names sampleHooks ["mochaHooks"] None
           sampleModules [] "mochaGlobalSetup" Hbuiltin Hmissing).
Defined.

(** ** Failing aggregators *)





